(** * Conditional ranks and information imbalance (dadapy/_utils/metric_comparisons.py)

    A shallow embedding of [_return_ranks] and [_return_imbalance].

    The Python code works on numpy arrays that live in the interpreter's
    store, writes the output array in place and calls the global random
    source.  The embedding keeps the three effects apart:

    - the store is a [heap] of arrays addressed by references;
    - exceptions and calls of [np.random.randint] are the nodes of a
      computation tree ([rand]);
    - a program is a function from the initial store to such a tree
      ([M]).

    Numbers: Python integers are [Z], array shapes and loop indices (which
    come out of [range]) are [nat].  The entries of the float64 array
    [conditional_ranks] are only ever assigned integers, so they are kept as
    [Z]; the two float operations of [_return_imbalance] are carried out on
    exact rationals ([Qc]), with [nan] and [inf] for the IEEE special values.
    Rounding is not modelled. *)

From Stdlib Require Import QArith Qcanon.
From stdpp Require Import base tactics option list list_numbers numbers functions.

Local Open Scope Z_scope.

(** ** Exceptions *)

(** The exceptions the two functions can raise: the failed [assert], the
    errors of numpy ([np.zeros] on a negative dimension, [np.random.randint]
    on an empty range) and the out-of-bounds index. *)
Inductive exn : Type :=
| AssertionError
| ValueError
| IndexError.

Inductive outcome (A : Type) : Type :=
| Returned (a : A)
| Raised (e : exn).
Global Arguments Returned {A} a.
Global Arguments Raised {A} e.

(** ** Arrays and the store *)

(** A two-dimensional array: its rows, and the column count (which numpy
    keeps in the shape even when there are no rows). *)
Record ndarray : Type := Ndarray {
  shape1 : nat;
  rows : list (list Z)
}.

Definition shape0 (a : ndarray) : nat := length (rows a).

(** Every numpy array is rectangular. *)
Definition wf_ndarray (a : ndarray) : Prop :=
  Forall (λ r, length r = shape1 a) (rows a).

(** [a[i, j]] for in-bounds [i], [j]. *)
Definition entry (a : ndarray) (i j : nat) : option Z :=
  rows a !! i ≫= (.!! j).

Definition loc : Type := nat.
Bind Scope nat_scope with loc.

(** The store: every reference designates an array; [next] is the first
    reference that has not been handed out yet. *)
Record heap : Type := Heap {
  next : loc;
  arr : loc → ndarray
}.

Definition alloc (a : ndarray) (σ : heap) : loc * heap :=
  (next σ, Heap (S (next σ)) (<[next σ := a]> (arr σ))).

Definition store (l : loc) (a : ndarray) (σ : heap) : heap :=
  Heap (next σ) (<[l := a]> (arr σ)).

(** ** Computations *)

(** A computation returns, raises, or asks the random source for an integer
    of [[low, high)] and goes on with the answer. *)
Inductive rand (A : Type) : Type :=
| Ret (a : A)
| Raise (e : exn)
| Randint (low high : Z) (k : Z → rand A).
Global Arguments Ret {A} a.
Global Arguments Raise {A} e.
Global Arguments Randint {A} low high k.

Fixpoint rbind {A B} (t : rand A) (f : A → rand B) : rand B :=
  match t with
  | Ret a => f a
  | Raise e => Raise e
  | Randint low high k => Randint low high (λ v, rbind (k v) f)
  end.

Definition leaf {A} (o : outcome A) : rand A :=
  match o with
  | Returned a => Ret a
  | Raised e => Raise e
  end.

Definition M (A : Type) : Type := heap → rand (A * heap).

Global Instance M_ret : MRet M := λ A a σ, Ret (a, σ).
Global Instance M_bind : MBind M :=
  λ A B f m σ, rbind (m σ) (λ p, f p.1 p.2).

Definition raise {A} (e : exn) : M A := λ _, Raise e.

(** [assert c] *)
Definition assert (c : bool) : M unit :=
  if c then mret () else raise AssertionError.

(** [for x in xs: body] *)
Fixpoint for_ {X} (xs : list X) (body : X → M unit) : M unit :=
  match xs with
  | [] => mret ()
  | x :: xs' => body x;; for_ xs' body
  end.

(** [[f(x) for x in xs]] *)
Fixpoint list_comp {X Y} (xs : list X) (f : X → M Y) : M (list Y) :=
  match xs with
  | [] => mret []
  | x :: xs' => y ← f x; ys ← list_comp xs' f; mret (y :: ys)
  end.

(** [range(n)]: empty when [n] is not positive. *)
Definition range (n : Z) : list nat := seq 0 (Z.to_nat n).

(** [xs[i]] on a Python list or a one-dimensional array, [i >= 0]. *)
Definition getitem {X} (xs : list X) (i : nat) : M X :=
  match xs !! i with
  | Some x => mret x
  | None => raise IndexError
  end.

(** ** The numpy operations the module uses *)

(** [a.shape[0]] and [a.shape[1]] *)
Definition shape_0 (l : loc) : M Z :=
  λ σ, Ret (Z.of_nat (shape0 (arr σ l)), σ).

Definition shape_1 (l : loc) : M Z :=
  λ σ, Ret (Z.of_nat (shape1 (arr σ l)), σ).

(** [np.zeros((n, k))]: a fresh array; a negative dimension is refused. *)
Definition np_zeros (n k : Z) : M loc :=
  λ σ, if bool_decide (n < 0 ∨ k < 0) then Raise ValueError
       else Ret (alloc (Ndarray (Z.to_nat k)
                          (replicate (Z.to_nat n) (replicate (Z.to_nat k) 0))) σ).

(** A basic slice of one row is a view: it holds no data of its own, only
    where to read in the array it was taken from. *)
Record view : Type := View {
  vbase : loc;
  vrow : nat;
  vstart : nat;
  vstop : nat
}.

(** What a view shows in the store [σ]; slice bounds are clipped to the
    row, as numpy does. *)
Definition view_contents (v : view) (σ : heap) : option (list Z) :=
  r ← rows (arr σ (vbase v)) !! vrow v;
  Some (take (vstop v - vstart v)%nat (drop (vstart v) r)).

(** [a[i, start:stop]] with [0 <= start, stop]; the row index is checked. *)
Definition getitem_slice (l : loc) (i : nat) (start stop : Z) : M view :=
  λ σ, if bool_decide (i < shape0 (arr σ l))%nat
       then Ret (View l i (Z.to_nat start) (Z.to_nat stop), σ)
       else Raise IndexError.

(** [a[i]]: the whole row, as a view. *)
Definition getitem_row (l : loc) (i : nat) : M view :=
  λ σ, if bool_decide (i < shape0 (arr σ l))%nat
       then Ret (View l i 0 (shape1 (arr σ l)), σ)
       else Raise IndexError.

(** [v[j]] on a view, [j >= 0]. *)
Definition view_getitem (v : view) (j : nat) : M Z :=
  λ σ, match view_contents v σ ≫= (.!! j) with
       | Some x => Ret (x, σ)
       | None => Raise IndexError
       end.

(** [x == v]: the elementwise comparison of a scalar with a view, a new
    boolean array. *)
Definition np_equal (x : Z) (v : view) : M (list bool) :=
  λ σ, match view_contents v σ with
       | Some r => Ret ((λ y, bool_decide (x = y)) <$> r, σ)
       | None => Raise IndexError
       end.

(** [np.where(b)[0]]: the positions of the true entries, in increasing
    order. *)
Fixpoint where_from (p : nat) (b : list bool) : list nat :=
  match b with
  | [] => []
  | c :: b' => if c then p :: where_from (S p) b' else where_from (S p) b'
  end.

Definition np_where (b : list bool) : list nat := where_from 0 b.

(** [np.random.randint(low, high)]: refuses an empty range. *)
Definition np_random_randint (low high : Z) : M Z :=
  λ σ, if bool_decide (low < high) then Randint low high (λ v, Ret (v, σ))
       else Raise ValueError.

(** The array [a] with [x] at row [i], column [j]. *)
Definition set_entry (a : ndarray) (i j : nat) (x : Z) : ndarray :=
  Ndarray (shape1 a) (alter (<[j := x]>) i (rows a)).

(** [a[i, j] = x], written in place. *)
Definition setitem (l : loc) (i j : nat) (x : Z) : M unit :=
  λ σ, let a := arr σ l in
       if bool_decide (i < shape0 a ∧ j < shape1 a)%nat
       then Ret ((), store l (set_entry a i j x) σ)
       else Raise IndexError.

(** ** Floats *)

Inductive float : Type :=
| fin (q : Qc)
| inf (negative : bool)
| nan.

Definition float_of_Z (z : Z) : float := fin (Qc_of_Z z).

(** IEEE division, up to rounding and the sign of zero. *)
Definition float_div (x y : float) : float :=
  match x, y with
  | nan, _ | _, nan => nan
  | inf _, inf _ => nan
  | inf s, fin d => inf (xorb s (bool_decide (d < 0)%Qc))
  | fin _, inf _ => fin 0%Qc
  | fin n, fin d =>
      if bool_decide (d = 0%Qc)
      then if bool_decide (n = 0%Qc) then nan else inf (bool_decide (n < 0)%Qc)
      else fin (n / d)%Qc
  end.

Definition sumZ (xs : list Z) : Z := foldr Z.add 0 xs.

(** The sum of all entries over their number; [nan] for an array without
    entries. *)
Definition mean (a : ndarray) : float :=
  let size := (shape0 a * shape1 a)%nat in
  if bool_decide (size = 0%nat) then nan
  else fin (Qc_of_Z (sumZ (concat (rows a))) / Qc_of_Z (Z.of_nat size))%Qc.

(** [np.mean(a)] *)
Definition np_mean (l : loc) : M float :=
  λ σ, Ret (mean (arr σ l), σ).

(** ** The two functions *)

Definition _return_ranks (dist_indices_1 dist_indices_2 : loc) (k : Z) : M loc :=
  n1 ← shape_0 dist_indices_1;
  n2 ← shape_0 dist_indices_2;
  assert (bool_decide (n1 = n2));;
  N ← shape_0 dist_indices_1;
  maxk_2 ← shape_1 dist_indices_2;
  conditional_ranks ← np_zeros N k;
  for_ (range N) (λ i,
    idx_k_d1 ← getitem_slice dist_indices_1 i 1 (k + 1);
    wr ← list_comp (range k) (λ k_neighbor,
           x ← view_getitem idx_k_d1 k_neighbor;
           row ← getitem_row dist_indices_2 i;
           b ← np_equal x row;
           mret (np_where b));
    for_ (range k) (λ k_neighbor,
      w ← getitem wr k_neighbor;
      if bool_decide (length w = 0%nat) then
        r ← np_random_randint maxk_2 N;
        setitem conditional_ranks i k_neighbor r
      else
        r ← getitem w 0;
        setitem conditional_ranks i k_neighbor (Z.of_nat r)));;
  mret conditional_ranks.

Definition _return_imbalance (dist_indices_1 dist_indices_2 : loc) (k : Z) : M float :=
  n1 ← shape_0 dist_indices_1;
  n2 ← shape_0 dist_indices_2;
  assert (bool_decide (n1 = n2));;
  N ← shape_0 dist_indices_1;
  ranks ← _return_ranks dist_indices_1 dist_indices_2 k;
  m ← np_mean ranks;
  let imb := float_div m (float_div (float_of_Z N) (fin 2%Qc)) in
  mret imb.

(** ** The body of the loop of [_return_ranks]

    The three parts of the body are given names so that lemmas can be
    stated about them; [_return_ranks_unfold] shows that [_return_ranks] is
    the loop over [row_body]. *)

(** One element of the comprehension [wr]. *)
Definition find_in_row (dist_indices_2 : loc) (i : nat) (idx_k_d1 : view)
    (k_neighbor : nat) : M (list nat) :=
  x ← view_getitem idx_k_d1 k_neighbor;
  row ← getitem_row dist_indices_2 i;
  b ← np_equal x row;
  mret (np_where b).

(** One pass of the inner loop. *)
Definition fill_entry (conditional_ranks : loc) (maxk_2 N : Z) (i : nat)
    (wr : list (list nat)) (k_neighbor : nat) : M unit :=
  w ← getitem wr k_neighbor;
  if bool_decide (length w = 0%nat) then
    r ← np_random_randint maxk_2 N;
    setitem conditional_ranks i k_neighbor r
  else
    r ← getitem w 0;
    setitem conditional_ranks i k_neighbor (Z.of_nat r).

(** One pass of the outer loop. *)
Definition row_body (dist_indices_1 dist_indices_2 conditional_ranks : loc)
    (k maxk_2 N : Z) (i : nat) : M unit :=
  idx_k_d1 ← getitem_slice dist_indices_1 i 1 (k + 1);
  wr ← list_comp (range k) (find_in_row dist_indices_2 i idx_k_d1);
  for_ (range k) (fill_entry conditional_ranks maxk_2 N i wr).

(** ** Reasoning about computations *)

(** *** Postconditions

    [wp draws t Q]: every run of [t] ends in an outcome that satisfies [Q];
    every range it asks the random source for is non-empty, so that a run
    exists.  With [draws = false] the random source must not be asked at
    all. *)
Fixpoint wp {A} (draws : bool) (t : rand A) (Q : outcome A → Prop) : Prop :=
  match t with
  | Ret a => Q (Returned a)
  | Raise e => Q (Raised e)
  | Randint low high k =>
      draws = true ∧ low < high ∧ ∀ v, low ≤ v < high → wp draws (k v) Q
  end.

(** The postcondition of a sequence: what [t] must establish for [f] to
    establish [Q]. *)
Definition then_ {A B} (draws : bool) (f : A → rand B) (Q : outcome B → Prop)
    (o : outcome A) : Prop :=
  match o with
  | Returned a => wp draws (f a) Q
  | Raised e => Q (Raised e)
  end.

(** *** Running against a random source

    [run randint t g]: the outcome of [t] when [np.random.randint] is
    [randint], a function of the source's state [g], and the state the
    source is left in. *)
Fixpoint run {G A} (randint : G → Z → Z → Z * G) (t : rand A) (g : G) : outcome A * G :=
  match t with
  | Ret a => (Returned a, g)
  | Raise e => (Raised e, g)
  | Randint low high k =>
      let r := randint g low high in run randint (k r.1) r.2
  end.

(** *** Probabilities

    [E t h]: the expectation of [h] over the outcomes of [t], when every
    call of [np.random.randint] is a fresh uniform draw from its range. *)
Definition sumQc (xs : list Qc) : Qc := foldr Qcplus 0%Qc xs.
Definition prodQc (xs : list Qc) : Qc := foldr Qcmult 1%Qc xs.

Fixpoint E {A} (t : rand A) (h : outcome A → Qc) : Qc :=
  match t with
  | Ret a => h (Returned a)
  | Raise e => h (Raised e)
  | Randint low high k =>
      (sumQc ((λ v, E (k v) h) <$> seqZ low (high - low)) / Qc_of_Z (high - low))%Qc
  end.

Definition indicator (b : bool) : Qc := if b then 1%Qc else 0%Qc.

(** [Pr t ev]: the probability that the outcome of [t] is in [ev]. *)
Definition Pr {A} (t : rand A) (ev : outcome A → bool) : Qc :=
  E t (λ o, indicator (ev o)).

(** *** Two computations on the same draws

    [coupled R t1 t2]: [t1] and [t2] ask the random source for the same
    ranges in the same order and, given the same answers, end in outcomes
    related by [R]. *)
Fixpoint coupled {A B} (R : outcome A → outcome B → Prop)
    (t1 : rand A) (t2 : rand B) : Prop :=
  match t1, t2 with
  | Ret a, Ret b => R (Returned a) (Returned b)
  | Ret a, Raise e => R (Returned a) (Raised e)
  | Raise e, Ret b => R (Raised e) (Returned b)
  | Raise e1, Raise e2 => R (Raised e1) (Raised e2)
  | Randint l1 h1 k1, Randint l2 h2 k2 =>
      l1 = l2 ∧ h1 = h2 ∧ ∀ v, l1 ≤ v < h1 → coupled R (k1 v) (k2 v)
  | _, _ => False
  end.

(** ** Vocabulary of the statements *)

(** [first_at n r p]: [p] is the first position of [n] in [r]. *)
Definition first_at (n : Z) (r : list Z) (p : nat) : Prop :=
  r !! p = Some n ∧ ∀ q, (q < p)%nat → r !! q ≠ Some n.

(** [np.where(n == r)[0]] *)
Definition positions (n : Z) (r : list Z) : list nat :=
  np_where ((λ y, bool_decide (n = y)) <$> r).

(** The two arguments of a call are references to arrays of the store. *)
Definition args_ok (l1 l2 : loc) (σ : heap) : Prop :=
  (l1 < next σ)%nat ∧ (l2 < next σ)%nat ∧
  wf_ndarray (arr σ l1) ∧ wf_ndarray (arr σ l2).

(** The neighbour of point [i] in column [1 + j] of the matrix [d]: the
    [j]-th nearest one when counting from [0] and leaving out the point
    itself in column [0]. *)
Definition neighbour (d : ndarray) (i j : nat) : option Z := entry d i (S j).

(** What the search finds for the neighbour in column [1 + j] of row [i]
    of [d1]: its positions in row [i] of [d2]. *)
Definition hits (d1 d2 : ndarray) (i j : nat) : list nat :=
  match neighbour d1 i j, rows d2 !! i with
  | Some n, Some r => positions n r
  | _, _ => []
  end.

(** The state of the store while the loop of [_return_ranks] runs: the
    inputs are as they were, the output array [lr] has its shape. *)
Definition loop_inv (l1 l2 lr : loc) (d1 d2 : ndarray) (k : Z) (σ : heap) : Prop :=
  arr σ l1 = d1 ∧ arr σ l2 = d2 ∧
  shape0 (arr σ lr) = shape0 d1 ∧ shape1 (arr σ lr) = Z.to_nat k ∧
  wf_ndarray (arr σ lr).

(** The entry written for column [1 + j] of row [i]: the first position
    found, or a rank of [[M2, N)] when nothing was found. *)
Definition entry_ok (d1 d2 a : ndarray) (i j : nat) : Prop :=
  match hits d1 d2 i j with
  | [] => ∃ v, entry a i j = Some v ∧
               Z.of_nat (shape1 d2) ≤ v < Z.of_nat (shape0 d1)
  | p :: _ => entry a i j = Some (Z.of_nat p)
  end.

(** No-miss inputs: every neighbour that is looked for is found. *)
Definition no_miss (d1 d2 : ndarray) (k : Z) : Prop :=
  ∀ i j n r,
    Z.of_nat j < k → neighbour d1 i j = Some n → rows d2 !! i = Some r → n ∈ r.

(** ** What a computation may write *)

(** [unchanged_but lr σ o]: an outcome that returns leaves every array
    other than [lr] as it was in [σ] and allocates nothing. *)
Definition unchanged_but {A} (lr : loc) (σ : heap) (o : outcome (A * heap)) : Prop :=
  match o with
  | Returned p => next p.2 = next σ ∧ ∀ l, l ≠ lr → arr p.2 l = arr σ l
  | Raised _ => True
  end.

(** [writes_only lr m]: whatever the store, [m] writes to [lr] only. *)
Definition writes_only {A} (lr : loc) (m : M A) : Prop :=
  ∀ σ, wp true (m σ) (unchanged_but lr σ).

(** ** Events on the rank array and their probabilities *)

(** The entries that have been written when the pass for entry [(i, j)]
    begins: the rows before [i], and the columns before [j] of row [i]. *)
Definition before (i j i' j' : nat) : bool :=
  (i' <? i)%nat || ((i' =? i)%nat && (j' <? j)%nat).

(** [sat sel P a]: each entry [(i, j)] of [a] that [sel] selects is in
    [P i j]. *)
Definition sat (sel : nat → nat → bool) (P : nat → nat → Z → bool)
    (a : ndarray) : bool :=
  forallb (λ i,
    forallb (λ j, negb (sel i j) || from_option (P i j) true (entry a i j))
      (seq 0 (shape1 a)))
    (seq 0 (shape0 a)).

(** The event that every entry [(i, j)] of the returned array is in
    [P i j]. *)
Definition ranks_in (P : nat → nat → Z → bool) (o : outcome (loc * heap)) : bool :=
  match o with
  | Returned p => sat (λ _ _, true) P (arr p.2 p.1)
  | Raised _ => false
  end.

(** The event that entry [(i, j)] of the returned array is in [Q]. *)
Definition rank_in (i j : nat) (Q : Z → bool) (o : outcome (loc * heap)) : bool :=
  match o with
  | Returned p => from_option Q false (entry (arr p.2 p.1) i j)
  | Raised _ => false
  end.

(** The probability that the entry for column [1 + j] of row [i] is in [Q]:
    for a hit, whether the position found is; for a miss, the share of [Q]
    in [[M2, N)]. *)
Definition entry_prob (d1 d2 : ndarray) (i j : nat) (Q : Z → bool) : Qc :=
  match hits d1 d2 i j with
  | [] =>
      (sumQc ((λ v, indicator (Q v)) <$>
                seqZ (Z.of_nat (shape1 d2))
                     (Z.of_nat (shape0 d1) - Z.of_nat (shape1 d2)))
       / Qc_of_Z (Z.of_nat (shape0 d1) - Z.of_nat (shape1 d2)))%Qc
  | p :: _ => indicator (Q (Z.of_nat p))
  end.

(** Two runs of the loop of [_return_ranks] in step: both loops are under
    way and the two output arrays are equal. *)
Definition in_step (l1 l2 lr : loc) (d1 d2 : ndarray)
    (l1' l2' lr' : loc) (d1' d2' : ndarray) (k : Z) (σ1 σ2 : heap) : Prop :=
  loop_inv l1 l2 lr d1 d2 k σ1 ∧ loop_inv l1' l2' lr' d1' d2' k σ2 ∧
  arr σ1 lr = arr σ2 lr'.

(** The array [a] with its entries renamed by [π]. *)
Definition relabel (π : Z → Z) (a : ndarray) : ndarray :=
  Ndarray (shape1 a) ((λ r : list Z, π <$> r) <$> rows a).

(** ** The expected imbalance *)




(** The entries from [(i, j)] on, in the order of the loops, are still the
    zeros of [np.zeros]. *)
Definition zeros_from (lr : loc) (n k i j : nat) (σ : heap) : Prop :=
  ∀ i' j', (i' < n)%nat → (j' < k)%nat → (i < i' ∨ i = i' ∧ j ≤ j')%nat →
           entry (arr σ lr) i' j' = Some 0.

(** ** Counting the draws *)





(** ** Examples *)

(** A store that holds the given arrays, for the examples. *)
Definition heap_of (arrays : list ndarray) : heap :=
  Heap (length arrays) (λ l, default (Ndarray 0 []) (arrays !! l)).

(** The 4-point example of the specification. *)
Definition d4 : ndarray :=
  Ndarray 4 [[0; 1; 2; 3]; [1; 0; 2; 3]; [2; 3; 0; 1]; [3; 2; 1; 0]].

(** A random source for the examples: a counter, which answers a request
    for an integer of [[low, high)] with [low + g mod (high - low)]. *)
Definition counter (g low high : Z) : Z * Z :=
  (low + g mod (high - low), g + 1).

(** The rows of the array that a run of [_return_ranks] returned. *)
Definition rows_of (o : outcome (loc * heap)) : outcome (list (list Z)) :=
  match o with
  | Returned p => Returned (rows (arr p.2 p.1))
  | Raised e => Raised e
  end.

(** The value that a run of [_return_imbalance] returned. *)
Definition value_of {A} (o : outcome (A * heap)) : outcome A :=
  match o with
  | Returned p => Returned p.1
  | Raised e => Raised e
  end.

(** * Proofs *)

(** ** The two functions on examples *)

(** The example of the specification, for [k = 1] and [k = 3]. *)
Example ranks_d4_1 :
  rows_of (run counter (_return_ranks 0 0 1 (heap_of [d4])) 0).1 =
  Returned [[1]; [1]; [1]; [1]].
Proof. by vm_compute. Qed.

Example ranks_d4_3 :
  rows_of (run counter (_return_ranks 0 0 3 (heap_of [d4])) 0).1 =
  Returned [[1; 2; 3]; [1; 2; 3]; [1; 2; 3]; [1; 2; 3]].
Proof. by vm_compute. Qed.

Example imbalance_d4_1 :
  value_of (run counter (_return_imbalance 0 0 1 (heap_of [d4])) 0).1 =
  Returned (fin (Q2Qc (1 # 2))).
Proof. by vm_compute. Qed.

(** Two different orderings: the neighbours [1], [2] of point [0] are at
    positions [3], [2] of its row in the second matrix. *)
Example ranks_reordered :
  rows_of (run counter
             (_return_ranks 0 1 2
                (heap_of [d4; Ndarray 4 [[0; 3; 2; 1]; [1; 2; 0; 3];
                                         [2; 0; 3; 1]; [3; 2; 1; 0]]])) 0).1 =
  Returned [[3; 2]; [2; 1]; [2; 1]; [1; 2]].
Proof. by vm_compute. Qed.

(** A second matrix with two columns only: the second neighbour of every
    point is missing and gets a drawn rank of [[2, 4)]; the source has been
    asked four times. *)
Example ranks_with_misses :
  let r := run counter
             (_return_ranks 0 1 2
                (heap_of [d4; Ndarray 2 [[0; 1]; [1; 0]; [2; 3]; [3; 2]]])) 0 in
  rows_of r.1 = Returned [[1; 2]; [1; 3]; [1; 2]; [1; 3]] ∧ r.2 = 4.
Proof. by vm_compute. Qed.

(** [k] out of range. *)
Example ranks_k_4 :
  rows_of (run counter (_return_ranks 0 0 4 (heap_of [d4])) 0).1 = Raised IndexError.
Proof. by vm_compute. Qed.

Example ranks_k_negative :
  rows_of (run counter (_return_ranks 0 0 (-1) (heap_of [d4])) 0).1 = Raised ValueError.
Proof. by vm_compute. Qed.

Example ranks_k_0 :
  rows_of (run counter (_return_ranks 0 0 0 (heap_of [d4])) 0).1 =
  Returned [[]; []; []; []].
Proof. by vm_compute. Qed.

Example imbalance_k_0 :
  value_of (run counter (_return_imbalance 0 0 0 (heap_of [d4])) 0).1 = Returned nan.
Proof. by vm_compute. Qed.

(** Discharges [args_ok] on a store given by [heap_of]. *)
Ltac args_ok_tac :=
  unfold args_ok, wf_ndarray; simpl; repeat split; try lia; repeat constructor.

Section wp_rules.
Context {A B : Type}.
Implicit Types (t : rand A) (f : A → rand B).

Lemma wp_mono draws t (Q Q' : outcome A → Prop) :
  (∀ o, Q o → Q' o) → wp draws t Q → wp draws t Q'.
Proof.
  intros HQ. induction t as [a|e|low high k IH]; simpl; [auto..|].
  intros (? & ? & Hk). eauto.
Qed.

Lemma wp_bind draws t f (Q : outcome B → Prop) :
  wp draws t (then_ draws f Q) → wp draws (rbind t f) Q.
Proof.
  induction t as [a|e|low high k IH]; simpl; [done..|].
  intros (? & ? & Hk). eauto.
Qed.

(** Without draws the computation is its outcome. *)
Lemma wp_leaf t (Q : outcome A → Prop) :
  wp false t Q → ∃ o, t = leaf o ∧ Q o.
Proof.
  destruct t as [a|e|]; simpl.
  - by exists (Returned a).
  - by exists (Raised e).
  - by intros [? _].
Qed.

End wp_rules.

Lemma run_leaf {G A} (randint : G → Z → Z → Z * G) (o : outcome A) g :
  run randint (leaf o) g = (o, g).
Proof. by destruct o. Qed.

(** The rules for programs: sequencing and loops. *)
Section program_rules.
Context (draws : bool).

Lemma wp_mbind {A B} (m : M A) (f : A → M B) σ (Q : outcome (B * heap) → Prop) :
  wp draws (m σ) (then_ draws (λ p, f p.1 p.2) Q) → wp draws ((m ≫= f) σ) Q.
Proof. apply wp_bind. Qed.

(** A loop over [seq s n] with an invariant indexed by the next value of
    the loop variable; an exception in the body ends the loop. *)
Lemma wp_for_seq (body : nat → M unit) (I : nat → heap → Prop)
    (Q : outcome (unit * heap) → Prop) n : ∀ s σ,
  I s σ →
  (∀ i σ', (s ≤ i < s + n)%nat → I i σ' →
     wp draws (body i σ') (λ o, match o with
                                 | Returned p => I (S i) p.2
                                 | Raised e => Q (Raised e)
                                 end)) →
  (∀ σ', I (s + n)%nat σ' → Q (Returned ((), σ'))) →
  wp draws (for_ (seq s n) body σ) Q.
Proof.
  induction n as [|n IH]; intros s σ HI Hbody HQ; simpl.
  - apply HQ. by rewrite Nat.add_0_r.
  - apply wp_mbind. eapply wp_mono; [|apply (Hbody s σ); [lia|done]].
    intros [[[] σ']|e]; simpl; [|done].
    intros HI'. apply IH; [done| |].
    + intros i σ'' ?. apply Hbody. lia.
    + intros σ''. replace (S s + n)%nat with (s + S n)%nat by lia. apply HQ.
Qed.

(** A comprehension whose element expression neither fails nor changes
    the store. *)
Lemma list_comp_pure {X Y} (f : X → M Y) (g : X → Y) σ xs :
  (∀ x, x ∈ xs → f x σ = Ret (g x, σ)) →
  list_comp xs f σ = Ret (g <$> xs, σ).
Proof.
  induction xs as [|x xs IH]; intros Hf; [done|].
  cbn [list_comp]. unfold mbind at 1, M_bind at 1.
  rewrite Hf by left. simpl. unfold mbind at 1, M_bind at 1.
  rewrite IH; [done|]. intros y Hy. apply Hf. by right.
Qed.

End program_rules.

(** ** The search for a neighbour in a row *)


Lemma first_at_elem_of n r p : first_at n r p → n ∈ r.
Proof. intros [Hp _]. by eapply list_elem_of_lookup_2. Qed.

Lemma where_from_nil s (n : Z) r :
  where_from s ((λ y, bool_decide (n = y)) <$> r) = [] ↔ n ∉ r.
Proof.
  revert s. induction r as [|y r IH]; intros s; simpl.
  - split; [|done]. intros _. apply not_elem_of_nil.
  - rewrite not_elem_of_cons. case_bool_decide as Hy.
    + split; [done|]. by intros [? _].
    + rewrite IH. split; [done|]. by intros [_ ?].
Qed.

Lemma where_from_head s (n : Z) r p :
  where_from s ((λ y, bool_decide (n = y)) <$> r) !! 0%nat = Some p ↔
  ∃ q, p = (s + q)%nat ∧ first_at n r q.
Proof.
  revert s. induction r as [|y r IH]; intros s; simpl.
  - split; [done|]. by intros (q & _ & [? _]).
  - case_bool_decide as Hy; simpl.
    + split.
      * intros [= <-]. exists 0%nat. split; [lia|]. split; [by subst|lia].
      * intros (q & -> & Hq). f_equal.
        destruct q as [|q]; [lia|]. destruct Hq as [_ Hq].
        destruct (Hq 0%nat); [lia|]. by subst.
    + rewrite IH. split.
      * intros (q & -> & Hq & Hq'). exists (S q). split; [lia|]. split; [done|].
        intros [|q'] ?; simpl; [congruence|]. apply Hq'. lia.
      * intros ([|q] & -> & Hq & Hq'); simpl in *; [congruence|].
        exists q. split; [lia|]. split; [done|].
        intros q' ?. apply (Hq' (S q')). lia.
Qed.

Lemma positions_nil n r : positions n r = [] ↔ n ∉ r.
Proof. apply where_from_nil. Qed.

Lemma positions_head n r p : positions n r !! 0%nat = Some p ↔ first_at n r p.
Proof.
  unfold positions, np_where. rewrite where_from_head. split.
  - by intros (q & -> & ?).
  - intros ?. by exists p.
Qed.

(** ** Arrays: reading after writing *)

Lemma wf_row a i r : wf_ndarray a → rows a !! i = Some r → length r = shape1 a.
Proof. intros Hwf Hr. by apply (Forall_lookup_1 _ _ _ _ Hwf Hr). Qed.

Lemma wf_entry a i j :
  wf_ndarray a → (i < shape0 a)%nat → (j < shape1 a)%nat → is_Some (entry a i j).
Proof.
  intros Hwf Hi Hj. unfold entry.
  destruct (lookup_lt_is_Some_2 (rows a) i Hi) as [r Hr]. rewrite Hr. simpl.
  apply lookup_lt_is_Some_2. by rewrite (wf_row a i r).
Qed.

Lemma shape0_set_entry a i j x : shape0 (set_entry a i j x) = shape0 a.
Proof. unfold shape0, set_entry. simpl. apply length_alter. Qed.

Lemma shape1_set_entry a i j x : shape1 (set_entry a i j x) = shape1 a.
Proof. done. Qed.

Lemma wf_set_entry a i j x : wf_ndarray a → wf_ndarray (set_entry a i j x).
Proof.
  unfold wf_ndarray, set_entry. simpl. intros Hwf.
  apply Forall_alter; [done|]. intros r _ Hr. by rewrite length_insert.
Qed.

Lemma entry_set_entry_eq a i j x :
  wf_ndarray a → (i < shape0 a)%nat → (j < shape1 a)%nat →
  entry (set_entry a i j x) i j = Some x.
Proof.
  intros Hwf Hi Hj. unfold entry, set_entry. simpl.
  destruct (lookup_lt_is_Some_2 (rows a) i Hi) as [r Hr].
  rewrite list_lookup_alter_eq, Hr. simpl.
  apply list_lookup_insert_eq. by rewrite (wf_row a i r).
Qed.

Lemma entry_set_entry_ne a i j x i' j' :
  (i, j) ≠ (i', j') → entry (set_entry a i j x) i' j' = entry a i' j'.
Proof.
  intros Hne. unfold entry, set_entry. simpl.
  destruct (decide (i = i')) as [<-|].
  - rewrite list_lookup_alter_eq. destruct (rows a !! i); [|done]. simpl.
    apply list_lookup_insert_ne. congruence.
  - by rewrite list_lookup_alter_ne.
Qed.

Lemma shape0_zeros n k :
  shape0 (Ndarray k (replicate n (replicate k 0))) = n.
Proof. unfold shape0. simpl. apply length_replicate. Qed.

Lemma wf_zeros n k : wf_ndarray (Ndarray k (replicate n (replicate k 0))).
Proof.
  unfold wf_ndarray. simpl. apply Forall_replicate. apply length_replicate.
Qed.

(** ** Unfolding [_return_ranks] *)

Lemma _return_ranks_unfold l1 l2 k :
  _return_ranks l1 l2 k =
  (n1 ← shape_0 l1;
   n2 ← shape_0 l2;
   assert (bool_decide (n1 = n2));;
   N ← shape_0 l1;
   maxk_2 ← shape_1 l2;
   conditional_ranks ← np_zeros N k;
   for_ (range N) (row_body l1 l2 conditional_ranks k maxk_2 N);;
   mret conditional_ranks).
Proof. reflexivity. Qed.

(** What [_return_ranks] is once the shapes have been compared and the
    output array allocated. *)
Lemma _return_ranks_start l1 l2 k σ :
  shape0 (arr σ l1) = shape0 (arr σ l2) → 0 ≤ k →
  _return_ranks l1 l2 k σ =
  rbind (for_ (range (Z.of_nat (shape0 (arr σ l1))))
           (row_body l1 l2 (next σ) k (Z.of_nat (shape1 (arr σ l2)))
              (Z.of_nat (shape0 (arr σ l1))))
           (alloc (Ndarray (Z.to_nat k)
                     (replicate (shape0 (arr σ l1)) (replicate (Z.to_nat k) 0))) σ).2)
        (λ p, Ret (next σ, p.2)).
Proof.
  intros Hrows Hk. rewrite _return_ranks_unfold.
  unfold mbind, M_bind, shape_0, shape_1, np_zeros. simpl.
  rewrite bool_decide_true by (by rewrite Hrows). simpl.
  rewrite bool_decide_false by lia. simpl.
  by rewrite Nat2Z.id.
Qed.

Lemma _return_ranks_assert l1 l2 k σ :
  shape0 (arr σ l1) ≠ shape0 (arr σ l2) →
  _return_ranks l1 l2 k σ = Raise AssertionError.
Proof.
  intros Hrows. rewrite _return_ranks_unfold.
  unfold mbind, M_bind, shape_0. simpl.
  rewrite bool_decide_false; [done|]. intros ?. apply Hrows. lia.
Qed.


(** ** The search in one row *)

(** The element of [wr] for a column that the first matrix has. *)
Lemma find_in_row_found l1 l2 d1 d2 k σ i j :
  arr σ l1 = d1 → arr σ l2 = d2 → wf_ndarray d1 → wf_ndarray d2 →
  shape0 d1 = shape0 d2 →
  (i < shape0 d1)%nat → (j < Z.to_nat k)%nat → (S j < shape1 d1)%nat →
  find_in_row l2 i (View l1 i (Z.to_nat 1) (Z.to_nat (k + 1))) j σ =
  Ret (hits d1 d2 i j, σ).
Proof.
  intros H1 H2 Hwf1 Hwf2 Hrows Hi Hj Hj'.
  destruct (wf_entry d1 i (S j)) as [n Hn]; [done..|].
  destruct (lookup_lt_is_Some_2 (rows d2) i) as [r Hr].
  { unfold shape0 in *. lia. }
  unfold hits, neighbour. rewrite Hn, Hr.
  unfold find_in_row, mbind, M_bind, view_getitem, view_contents. simpl.
  rewrite H1. unfold entry in Hn.
  destruct (rows d1 !! i) as [r1|]; [|done]. simpl in *.
  rewrite lookup_take_lt, lookup_drop by lia.
  change (Z.to_nat 1 + j)%nat with (S j). rewrite Hn. simpl.
  unfold getitem_row. rewrite H2.
  rewrite bool_decide_true by (rewrite <-Hrows; lia). simpl.
  unfold np_equal, view_contents. simpl. rewrite H2, Hr. simpl.
  rewrite Nat.sub_0_r, take_ge; [done|].
  rewrite drop_0, (wf_row d2 i r) by done. lia.
Qed.




(** ** The loop on well-formed inputs *)

Section valid_input.
Context (l1 l2 lr : loc) (d1 d2 : ndarray) (k : Z).
Context (Hwf1 : wf_ndarray d1) (Hwf2 : wf_ndarray d2).
Context (Hrows : shape0 d1 = shape0 d2).
Context (Hk0 : 0 ≤ k).
Context (Hk : (0 < shape0 d1)%nat → 0 < k → k ≤ Z.of_nat (shape1 d1) - 1).
Context (Hlr1 : lr ≠ l1) (Hlr2 : lr ≠ l2).

Local Abbreviation N := (Z.of_nat (shape0 d1)).
Local Abbreviation M2 := (Z.of_nat (shape1 d2)).

Lemma loop_inv_store σ i j x :
  loop_inv l1 l2 lr d1 d2 k σ →
  loop_inv l1 l2 lr d1 d2 k (store lr (set_entry (arr σ lr) i j x) σ).
Proof.
  intros (H1 & H2 & H3 & H4 & H5). unfold loop_inv, store. simpl.
  rewrite !fn_lookup_insert_ne, fn_lookup_insert by done.
  rewrite shape0_set_entry, shape1_set_entry.
  repeat split; [done..|]. by apply wf_set_entry.
Qed.

Lemma find_in_row_eq σ i j :
  loop_inv l1 l2 lr d1 d2 k σ → (i < shape0 d1)%nat → (j < Z.to_nat k)%nat →
  find_in_row l2 i (View l1 i (Z.to_nat 1) (Z.to_nat (k + 1))) j σ =
  Ret (hits d1 d2 i j, σ).
Proof.
  intros (H1 & H2 & _) Hi Hj. apply find_in_row_found; [done..|lia].
Qed.

Lemma row_body_eq σ i :
  loop_inv l1 l2 lr d1 d2 k σ → (i < shape0 d1)%nat →
  row_body l1 l2 lr k M2 N i σ =
  for_ (range k) (fill_entry lr M2 N i (hits d1 d2 i <$> range k)) σ.
Proof.
  intros Hinv Hi. unfold row_body, mbind, M_bind, getitem_slice.
  rewrite bool_decide_true by (by destruct Hinv as [-> _]). simpl.
  rewrite (list_comp_pure _ (hits d1 d2 i)); [done|].
  intros j Hj. apply find_in_row_eq; [done..|].
  unfold range in Hj. apply elem_of_seq in Hj. lia.
Qed.

(** One pass of the inner loop: a miss asks for a random rank, or fails
    when there is none to draw; a hit takes the first position. *)
Lemma fill_entry_eq σ i j :
  loop_inv l1 l2 lr d1 d2 k σ → (i < shape0 d1)%nat → (j < Z.to_nat k)%nat →
  fill_entry lr M2 N i (hits d1 d2 i <$> range k) j σ =
  match hits d1 d2 i j with
  | [] =>
      if bool_decide (M2 < N)
      then Randint M2 N (λ v, Ret ((), store lr (set_entry (arr σ lr) i j v) σ))
      else Raise ValueError
  | p :: _ => Ret ((), store lr (set_entry (arr σ lr) i j (Z.of_nat p)) σ)
  end.
Proof.
  intros (_ & _ & H3 & H4 & _) Hi Hj.
  unfold fill_entry, mbind at 1, M_bind at 1, getitem.
  unfold range. rewrite list_lookup_fmap, lookup_seq_lt by done. simpl.
  destruct (hits d1 d2 i j) as [|p ps]; simpl.
  - unfold mbind, M_bind, np_random_randint, setitem.
    case_bool_decide; [|done]. simpl.
    by rewrite bool_decide_true by lia.
  - unfold mbind, M_bind, setitem. simpl.
    by rewrite bool_decide_true by lia.
Qed.

Lemma entry_ok_set_entry_ne a i j x i' j' :
  (i, j) ≠ (i', j') → entry_ok d1 d2 a i' j' → entry_ok d1 d2 (set_entry a i j x) i' j'.
Proof. intros Hne. unfold entry_ok. by rewrite entry_set_entry_ne. Qed.

(** The inner loop on row [i]. *)
Lemma wp_fill_row draws σ i :
  loop_inv l1 l2 lr d1 d2 k σ → (i < shape0 d1)%nat →
  (draws = false → ∀ j, (j < Z.to_nat k)%nat → hits d1 d2 i j = [] → N ≤ M2) →
  (∀ i' j', (i' < i)%nat → (j' < Z.to_nat k)%nat → entry_ok d1 d2 (arr σ lr) i' j') →
  wp draws (for_ (range k) (fill_entry lr M2 N i (hits d1 d2 i <$> range k)) σ)
    (λ o, match o with
          | Returned p =>
              loop_inv l1 l2 lr d1 d2 k p.2 ∧
              ∀ i' j', (i' < S i)%nat → (j' < Z.to_nat k)%nat →
                       entry_ok d1 d2 (arr p.2 lr) i' j'
          | Raised e =>
              e = ValueError ∧ N ≤ M2 ∧
              ∃ j, (j < Z.to_nat k)%nat ∧ hits d1 d2 i j = []
          end).
Proof.
  intros Hinv Hi Hdraws Hdone. unfold range.
  apply (wp_for_seq draws _ (λ j σ',
    loop_inv l1 l2 lr d1 d2 k σ' ∧
    ∀ i' j', (i' < i ∨ i' = i ∧ j' < j)%nat → (j' < Z.to_nat k)%nat →
             entry_ok d1 d2 (arr σ' lr) i' j')).
  - split; [done|]. intros i' j' [?|[_ ?]] ?; [auto|lia].
  - intros j σ' Hj [Hinv' Hdone'].
    assert (∀ x, loop_inv l1 l2 lr d1 d2 k (store lr (set_entry (arr σ' lr) i j x) σ') ∧
      (entry (set_entry (arr σ' lr) i j x) i j = Some x →
       entry_ok d1 d2 (set_entry (arr σ' lr) i j x) i j) →
      loop_inv l1 l2 lr d1 d2 k (store lr (set_entry (arr σ' lr) i j x) σ') ∧
      ∀ i' j', (i' < i ∨ i' = i ∧ j' < S j)%nat → (j' < Z.to_nat k)%nat →
        entry_ok d1 d2 (arr (store lr (set_entry (arr σ' lr) i j x) σ') lr) i' j')
      as Hstep.
    { intros x [Hinv'' Hx]. split; [done|]. intros i' j' Hij Hj'.
      unfold store. simpl. rewrite fn_lookup_insert.
      destruct (decide ((i, j) = (i', j'))) as [[= <- <-]|Hne].
      - apply Hx. destruct Hinv' as (_ & _ & ? & ? & ?).
        apply entry_set_entry_eq; [done|lia..].
      - apply entry_ok_set_entry_ne; [done|]. apply Hdone'; [|done].
        destruct Hij as [?|[-> ?]]; [by left|right].
        split; [done|]. assert (j' ≠ j) by congruence. lia. }
    rewrite fill_entry_eq by (done || lia). unfold entry_ok in Hstep.
    destruct (hits d1 d2 i j) as [|p ps] eqn:Hhits.
    + case_bool_decide as HM2; simpl.
      * destruct draws; [|pose proof (Hdraws eq_refl j ltac:(lia) Hhits); lia].
        split; [done|]. split; [done|]. intros v Hv. simpl. apply Hstep.
        split; [by apply loop_inv_store|]. eauto.
      * split; [done|]. split; [lia|]. exists j. split; [lia|done].
    + simpl. apply Hstep. split; [by apply loop_inv_store|done].
  - intros σ' [Hinv' Hdone']. split; [done|]. simpl.
    intros i' j' ? ?. apply Hdone'; [|done]. lia.
Qed.

(** The outer loop. *)
Lemma wp_rows draws σ :
  loop_inv l1 l2 lr d1 d2 k σ →
  (draws = false →
   ∀ i j, (i < shape0 d1)%nat → (j < Z.to_nat k)%nat → hits d1 d2 i j = [] → N ≤ M2) →
  wp draws (for_ (range N) (row_body l1 l2 lr k M2 N) σ)
    (λ o, match o with
          | Returned p =>
              loop_inv l1 l2 lr d1 d2 k p.2 ∧
              ∀ i j, (i < shape0 d1)%nat → (j < Z.to_nat k)%nat →
                     entry_ok d1 d2 (arr p.2 lr) i j
          | Raised e =>
              e = ValueError ∧ N ≤ M2 ∧
              ∃ i j, (i < shape0 d1)%nat ∧ (j < Z.to_nat k)%nat ∧ hits d1 d2 i j = []
          end).
Proof.
  intros Hinv Hdraws. unfold range. rewrite Nat2Z.id.
  apply (wp_for_seq draws _ (λ i σ',
    loop_inv l1 l2 lr d1 d2 k σ' ∧
    ∀ i' j', (i' < i)%nat → (j' < Z.to_nat k)%nat → entry_ok d1 d2 (arr σ' lr) i' j')).
  - split; [done|]. intros; lia.
  - intros i σ' Hi [Hinv' Hdone']. rewrite row_body_eq by (done || lia).
    eapply wp_mono; [|apply wp_fill_row; [done|lia| |done]].
    + intros [p|e]; [done|]. intros (-> & ? & j & ? & ?).
      split; [done|]. split; [done|]. exists i, j. split; [lia|done].
    + intros Hd j Hj. apply (Hdraws Hd i j); [lia|done].
  - by intros σ' [Hinv' Hdone'].
Qed.
End valid_input.

(** ** [_return_ranks] on well-formed inputs *)

Lemma hits_nil d1 d2 i j n r :
  neighbour d1 i j = Some n → rows d2 !! i = Some r →
  hits d1 d2 i j = [] ↔ n ∉ r.
Proof.
  intros Hn Hr. unfold hits. rewrite Hn, Hr. apply positions_nil.
Qed.

Lemma hits_cons d1 d2 i j n r p ps :
  neighbour d1 i j = Some n → rows d2 !! i = Some r →
  hits d1 d2 i j = p :: ps → first_at n r p.
Proof.
  intros Hn Hr. unfold hits. rewrite Hn, Hr. intros Hpos.
  apply positions_head. by rewrite Hpos.
Qed.

Lemma wp_return_ranks draws l1 l2 k σ :
  args_ok l1 l2 σ →
  shape0 (arr σ l1) = shape0 (arr σ l2) →
  0 ≤ k →
  ((0 < shape0 (arr σ l1))%nat → 0 < k → k ≤ Z.of_nat (shape1 (arr σ l1)) - 1) →
  (draws = false →
   ∀ i j, (i < shape0 (arr σ l1))%nat → (j < Z.to_nat k)%nat →
          hits (arr σ l1) (arr σ l2) i j = [] →
          Z.of_nat (shape0 (arr σ l1)) ≤ Z.of_nat (shape1 (arr σ l2))) →
  wp draws (_return_ranks l1 l2 k σ)
    (λ o, match o with
          | Returned p =>
              p.1 = next σ ∧
              loop_inv l1 l2 (next σ) (arr σ l1) (arr σ l2) k p.2 ∧
              ∀ i j, (i < shape0 (arr σ l1))%nat → (j < Z.to_nat k)%nat →
                     entry_ok (arr σ l1) (arr σ l2) (arr p.2 (next σ)) i j
          | Raised e =>
              e = ValueError ∧
              Z.of_nat (shape0 (arr σ l1)) ≤ Z.of_nat (shape1 (arr σ l2)) ∧
              ∃ i j, (i < shape0 (arr σ l1))%nat ∧ (j < Z.to_nat k)%nat ∧
                     hits (arr σ l1) (arr σ l2) i j = []
          end).
Proof.
  intros (Hl1 & Hl2 & Hwf1 & Hwf2) Hrows Hk0 Hk Hdraws.
  rewrite _return_ranks_start by done. apply wp_bind.
  eapply wp_mono; [|apply (wp_rows l1 l2 (next σ) (arr σ l1) (arr σ l2) k);
                     try done; try lia].
  - intros [p|e]; simpl; [|done]. by intros [? ?].
  - unfold loop_inv, alloc. simpl.
    rewrite !fn_lookup_insert_ne, fn_lookup_insert by lia.
    rewrite shape0_zeros. repeat split; [done..|]. apply wf_zeros.
Qed.

Lemma entry_ok_hit d1 d2 a i j n r :
  entry_ok d1 d2 a i j →
  neighbour d1 i j = Some n → rows d2 !! i = Some r → n ∈ r →
  ∃ p, first_at n r p ∧ entry a i j = Some (Z.of_nat p).
Proof.
  unfold entry_ok. intros Hok Hn Hr Hin.
  destruct (hits d1 d2 i j) as [|p ps] eqn:Hhits.
  - by apply (hits_nil d1 d2 i j n r) in Hhits.
  - exists p. split; [|done]. by eapply hits_cons.
Qed.

Lemma entry_ok_miss d1 d2 a i j n r :
  entry_ok d1 d2 a i j →
  neighbour d1 i j = Some n → rows d2 !! i = Some r → n ∉ r →
  ∃ v, entry a i j = Some v ∧ Z.of_nat (shape1 d2) ≤ v < Z.of_nat (shape0 d1).
Proof.
  unfold entry_ok. intros Hok Hn Hr Hin.
  destruct (hits d1 d2 i j) as [|p ps] eqn:Hhits; [done|].
  destruct Hin. eapply first_at_elem_of, hits_cons; eauto.
Qed.

Lemma no_miss_hits d1 d2 k i j :
  wf_ndarray d1 → shape0 d1 = shape0 d2 → k ≤ Z.of_nat (shape1 d1) - 1 →
  no_miss d1 d2 k →
  (i < shape0 d1)%nat → (j < Z.to_nat k)%nat → hits d1 d2 i j ≠ [].
Proof.
  intros Hwf Hrows Hk Hno Hi Hj Hhits.
  destruct (wf_entry d1 i (S j)) as [n Hn]; [done|done|lia|].
  destruct (lookup_lt_is_Some_2 (rows d2) i) as [r Hr].
  { unfold shape0 in *. lia. }
  apply (hits_nil d1 d2 i j n r) in Hhits; [|done..].
  apply Hhits, (Hno i j n r); [lia|done..].
Qed.

(** ** The frame of the two functions *)

Lemma writes_only_pure {A} lr (m : M A) :
  (∀ σ, (∃ a, m σ = Ret (a, σ)) ∨ (∃ e, m σ = Raise e)) → writes_only lr m.
Proof. intros Hm σ. by destruct (Hm σ) as [[a ->]|[e ->]]. Qed.

Lemma writes_only_bind {A B} lr (m : M A) (f : A → M B) :
  writes_only lr m → (∀ a, writes_only lr (f a)) → writes_only lr (m ≫= f).
Proof.
  intros Hm Hf σ. apply wp_mbind. eapply wp_mono; [|apply Hm].
  intros [[a σ']|e]; simpl; [|done]. intros [Hnext Harr].
  eapply wp_mono; [|apply Hf]. intros [[b σ'']|e]; simpl; [|done].
  intros [Hnext' Harr']. split; [congruence|].
  intros l Hl. by rewrite Harr', Harr.
Qed.

Lemma writes_only_for_ {X} lr (xs : list X) (body : X → M unit) :
  (∀ x, writes_only lr (body x)) → writes_only lr (for_ xs body).
Proof.
  intros Hbody. induction xs as [|x xs IH]; simpl.
  - by intros σ.
  - by apply writes_only_bind.
Qed.

Lemma writes_only_list_comp {X Y} lr (xs : list X) (f : X → M Y) :
  (∀ x, writes_only lr (f x)) → writes_only lr (list_comp xs f).
Proof.
  intros Hf. induction xs as [|x xs IH]; simpl.
  - by intros σ.
  - apply writes_only_bind; [done|]. intros y.
    apply writes_only_bind; [done|]. by intros ys σ.
Qed.

Lemma writes_only_getitem {X} lr (xs : list X) i : writes_only lr (getitem xs i).
Proof.
  apply writes_only_pure. intros σ. unfold getitem.
  destruct (xs !! i); [left|right]; eauto.
Qed.

Lemma writes_only_find_in_row lr l2 i v j : writes_only lr (find_in_row l2 i v j).
Proof.
  unfold find_in_row. apply writes_only_bind.
  { apply writes_only_pure. intros σ. unfold view_getitem.
    destruct (_ ≫= _); [left|right]; eauto. }
  intros x. apply writes_only_bind.
  { apply writes_only_pure. intros σ. unfold getitem_row.
    case_bool_decide; [left|right]; eauto. }
  intros row. apply writes_only_bind.
  { apply writes_only_pure. intros σ. unfold np_equal.
    destruct (view_contents _ _); [left|right]; eauto. }
  by intros b σ.
Qed.

Lemma writes_only_setitem lr i j x : writes_only lr (setitem lr i j x).
Proof.
  intros σ. unfold setitem. simpl. case_bool_decide; simpl; [|done].
  split; [done|]. intros l Hl. by rewrite fn_lookup_insert_ne.
Qed.

Lemma writes_only_fill_entry lr maxk_2 N i wr j :
  writes_only lr (fill_entry lr maxk_2 N i wr j).
Proof.
  unfold fill_entry. apply writes_only_bind; [apply writes_only_getitem|].
  intros w. case_bool_decide.
  - apply writes_only_bind; [|intros r; apply writes_only_setitem].
    intros σ. unfold np_random_randint. case_bool_decide; simpl; [|done].
    split; [done|]. split; [done|]. by intros v _.
  - apply writes_only_bind; [apply writes_only_getitem|].
    intros r. apply writes_only_setitem.
Qed.

Lemma writes_only_row_body lr l1 l2 k maxk_2 N i :
  writes_only lr (row_body l1 l2 lr k maxk_2 N i).
Proof.
  unfold row_body. apply writes_only_bind.
  { apply writes_only_pure. intros σ. unfold getitem_slice.
    case_bool_decide; [left|right]; eauto. }
  intros v. apply writes_only_bind.
  { apply writes_only_list_comp. intros j. apply writes_only_find_in_row. }
  intros wr. apply writes_only_for_. intros j. apply writes_only_fill_entry.
Qed.

(** [_return_ranks] returns a fresh array and writes to nothing else. *)
Lemma _return_ranks_frame l1 l2 k σ :
  wp true (_return_ranks l1 l2 k σ)
    (λ o, match o with
          | Returned p =>
              p.1 = next σ ∧ next p.2 = S (next σ) ∧
              ∀ l, (l < next σ)%nat → arr p.2 l = arr σ l
          | Raised _ => True
          end).
Proof.
  rewrite _return_ranks_unfold.
  unfold mbind at 1 2 3 4 5 6, M_bind at 1 2 3 4 5 6, shape_0, shape_1, assert.
  simpl. case_bool_decide; simpl; [|done].
  unfold np_zeros. case_bool_decide; simpl; [done|].
  apply wp_mbind. eapply wp_mono; [|apply writes_only_for_; intros i;
                                     apply writes_only_row_body].
  intros [[[] σ']|e]; simpl; [|done]. intros [Hnext Harr].
  split; [done|]. split; [done|]. intros l Hl.
  rewrite Harr by lia. apply fn_lookup_insert_ne. lia.
Qed.

Lemma _return_imbalance_frame l1 l2 k σ :
  wp true (_return_imbalance l1 l2 k σ)
    (λ o, match o with
          | Returned p => ∀ l, (l < next σ)%nat → arr p.2 l = arr σ l
          | Raised _ => True
          end).
Proof.
  unfold _return_imbalance.
  unfold mbind at 1 2 3 4, M_bind at 1 2 3 4, shape_0, assert.
  simpl. case_bool_decide; simpl; [|done].
  apply wp_mbind. eapply wp_mono; [|apply _return_ranks_frame].
  intros [[lr σ']|e]; simpl; [|done]. by intros (_ & _ & Harr).
Qed.

(** ** The mean and the imbalance *)



Lemma Qc_of_Z_ne_0 z : z ≠ 0 → Qc_of_Z z ≠ 0%Qc.
Proof. intros Hz. rewrite <-Z2Qc_inj_0. by intros ?%Z2Qc_inj. Qed.


Lemma _return_imbalance_unfold l1 l2 k σ :
  shape0 (arr σ l1) = shape0 (arr σ l2) →
  _return_imbalance l1 l2 k σ =
  rbind (_return_ranks l1 l2 k σ)
    (λ p, Ret (float_div (mean (arr p.2 p.1))
                 (float_div (float_of_Z (Z.of_nat (shape0 (arr σ l1)))) (fin 2%Qc)),
               p.2)).
Proof.
  intros Hrows. unfold _return_imbalance.
  unfold mbind at 1 2 3 4, M_bind at 1 2 3 4, shape_0, assert. simpl.
  by rewrite bool_decide_true by (by rewrite Hrows).
Qed.

Lemma coupled_bind_ret {A B} (Q : outcome A → Prop)
    (R : outcome A → outcome B → Prop) (t : rand A) (f : A → B) :
  wp true t Q →
  (∀ a, Q (Returned a) → R (Returned a) (Returned (f a))) →
  (∀ e, Q (Raised e) → R (Raised e) (Raised e)) →
  coupled R t (rbind t (λ a, Ret (f a))).
Proof.
  intros Ht HR HE. induction t as [a|e|low high k' IH]; simpl in *; [auto..|].
  destruct Ht as (_ & _ & Ht). auto.
Qed.

(** ** Identical inputs *)



(** ** Expectations *)

Lemma sumQc_cons (x : Qc) xs : sumQc (x :: xs) = (x + sumQc xs)%Qc.
Proof. done. Qed.

Lemma prodQc_cons (x : Qc) xs : prodQc (x :: xs) = (x * prodQc xs)%Qc.
Proof. done. Qed.

Lemma sumQc_fmap_ext {X} (f g : X → Qc) xs :
  (∀ x, x ∈ xs → f x = g x) → sumQc (f <$> xs) = sumQc (g <$> xs).
Proof.
  induction xs as [|x xs IH]; intros Hfg; [done|].
  rewrite !fmap_cons, !sumQc_cons, Hfg by left.
  rewrite IH; [done|]. intros y Hy. apply Hfg. by right.
Qed.

Lemma sumQc_fmap_scale {X} (c : Qc) (f : X → Qc) xs :
  sumQc ((λ x, c * f x)%Qc <$> xs) = (c * sumQc (f <$> xs))%Qc.
Proof.
  induction xs as [|x xs IH]; [simpl; ring|].
  rewrite !fmap_cons, !sumQc_cons, IH. ring.
Qed.

Lemma sumQc_fmap_const {X} (c : Qc) (xs : list X) :
  sumQc ((λ _, c) <$> xs) = (Qc_of_Z (Z.of_nat (length xs)) * c)%Qc.
Proof.
  induction xs as [|x xs IH]; [change (0 = 0 * c)%Qc; ring|].
  rewrite fmap_cons, sumQc_cons, IH. cbn [length].
  rewrite Nat2Z.inj_succ, <-Z.add_1_r, Z2Qc_inj_add, Z2Qc_inj_1. ring.
Qed.

Lemma E_bind {A B} (t : rand A) (f : A → rand B) (h : outcome B → Qc) :
  E (rbind t f) h =
  E t (λ o, match o with
            | Returned a => E (f a) h
            | Raised e => h (Raised e)
            end).
Proof.
  induction t as [a|e|low high k IH]; simpl; [done..|].
  f_equal. apply sumQc_fmap_ext. intros v _. apply IH.
Qed.

(** Two functions that agree on the outcomes have the same expectation. *)
Lemma E_ext {A} (t : rand A) (h1 h2 : outcome A → Qc) :
  wp true t (λ o, h1 o = h2 o) → E t h1 = E t h2.
Proof.
  induction t as [a|e|low high k IH]; simpl; [done..|].
  intros (_ & _ & Hk). f_equal. apply sumQc_fmap_ext.
  intros v Hv. apply IH, Hk. apply elem_of_seqZ in Hv. lia.
Qed.

Lemma E_scale {A} (t : rand A) (c : Qc) (h : outcome A → Qc) :
  E t (λ o, c * h o)%Qc = (c * E t h)%Qc.
Proof.
  induction t as [a|e|low high k IH]; simpl; [done..|].
  rewrite (sumQc_fmap_ext _ (λ v, c * E (k v) h)%Qc) by (intros; apply IH).
  rewrite sumQc_fmap_scale. unfold Qcdiv. ring.
Qed.

(** The outcomes have total probability one. *)
Lemma E_const {A} (t : rand A) (c : Qc) :
  wp true t (λ _, True) → E t (λ _, c) = c.
Proof.
  induction t as [a|e|low high k IH]; simpl; [done..|].
  intros (_ & Hlow & Hk).
  rewrite (sumQc_fmap_ext _ (λ _, c)).
  - rewrite sumQc_fmap_const, length_seqZ, Z2Nat.id by lia.
    pose proof (Qc_of_Z_ne_0 (high - low) ltac:(lia)). by field.
  - intros v Hv. apply IH, Hk. apply elem_of_seqZ in Hv. lia.
Qed.

(** The expectation over a loop: when each pass multiplies the expected
    value of [J] by a constant, the loop multiplies it by their product. *)
Lemma E_for_seq (body : nat → M unit) (I : nat → heap → Prop)
    (J : nat → heap → Qc) (c : nat → Qc) (h : outcome (unit * heap) → Qc) n :
  ∀ s σ,
  I s σ →
  (∀ i σ', (s ≤ i < s + n)%nat → I i σ' →
     wp true (body i σ') (λ o, match o with
                                | Returned p => I (S i) p.2
                                | Raised _ => False
                                end)) →
  (∀ i σ', (s ≤ i < s + n)%nat → I i σ' →
     E (body i σ') (λ o, match o with
                          | Returned p => J (S i) p.2
                          | Raised _ => 0
                          end) = c i * J i σ')%Qc →
  (∀ σ', I (s + n)%nat σ' → h (Returned ((), σ')) = J (s + n)%nat σ') →
  E (for_ (seq s n) body σ) h = (prodQc (c <$> seq s n) * J s σ)%Qc.
Proof.
  induction n as [|n IH]; intros s σ HI Hwp HE Hh; cbn [seq for_ fmap list_fmap].
  - change (h (Returned ((), σ)) = (1 * J s σ)%Qc).
    rewrite Nat.add_0_r in Hh. rewrite (Hh σ HI). ring.
  - rewrite prodQc_cons. unfold mbind, M_bind. rewrite E_bind.
    rewrite (E_ext _ _ (λ o, prodQc (c <$> seq (S s) n) *
                              match o with
                              | Returned p => J (S s) p.2
                              | Raised _ => 0
                              end)%Qc).
    + rewrite E_scale, HE by (done || lia). ring.
    + eapply wp_mono; [|apply (Hwp s σ); [lia|done]].
      intros [[[] σ']|e]; simpl; [|done]. intros HI'.
      apply IH; [done|intros; apply Hwp; (done || lia)|
                 intros; apply HE; (done || lia)|].
      intros σ''. replace (S s + n)%nat with (s + S n)%nat by lia. apply Hh.
Qed.

(** ** Events on the rank array: lemmas *)

Lemma before_spec i j i' j' :
  before i j i' j' = true ↔ (i' < i ∨ i' = i ∧ j' < j)%nat.
Proof.
  unfold before.
  rewrite orb_true_iff, andb_true_iff, !Nat.ltb_lt, Nat.eqb_eq. done.
Qed.

Lemma sat_spec sel P a :
  sat sel P a = true ↔
  ∀ i j v, (i < shape0 a)%nat → (j < shape1 a)%nat → sel i j = true →
           entry a i j = Some v → P i j v = true.
Proof.
  unfold sat. rewrite forallb_forall. split.
  - intros H i j v Hi Hj Hsel Hv.
    assert (In i (seq 0 (shape0 a))) as Hini by (apply in_seq; lia).
    assert (In j (seq 0 (shape1 a))) as Hinj by (apply in_seq; lia).
    specialize (H i Hini). rewrite forallb_forall in H.
    specialize (H j Hinj). by rewrite Hsel, Hv in H.
  - intros H i Hi%in_seq. rewrite forallb_forall. intros j Hj%in_seq.
    destruct (sel i j) eqn:Hsel; [|done]. simpl.
    destruct (entry a i j) as [v|] eqn:Hv; [|done]. simpl.
    apply (H i j v); (done || lia).
Qed.

Lemma sat_ext sel sel' P a :
  (∀ i j, (i < shape0 a)%nat → (j < shape1 a)%nat → sel i j = sel' i j) →
  sat sel P a = sat sel' P a.
Proof.
  intros Hsel. apply eq_true_iff_eq. rewrite !sat_spec.
  split; intros H i j v Hi Hj Hs; apply H; try done.
  - by rewrite Hsel.
  - by rewrite <-Hsel.
Qed.

Lemma sat_before_0 P a : sat (before 0 0) P a = true.
Proof.
  apply sat_spec. intros i j v _ _ Hb%before_spec. lia.
Qed.

Lemma sat_before_row P a i :
  sat (before i (shape1 a)) P a = sat (before (S i) 0) P a.
Proof.
  apply sat_ext. intros i' j' _ Hj'. apply eq_true_iff_eq.
  rewrite !before_spec. lia.
Qed.

Lemma sat_before_all P a :
  sat (before (shape0 a) 0) P a = sat (λ _ _, true) P a.
Proof.
  apply sat_ext. intros i' j' Hi' _. apply before_spec. lia.
Qed.

(** Writing entry [(i, j)] adds it to the entries written. *)
Lemma sat_before_set_entry P a i j x :
  wf_ndarray a → (i < shape0 a)%nat → (j < shape1 a)%nat →
  sat (before i (S j)) P (set_entry a i j x) =
  P i j x && sat (before i j) P a.
Proof.
  intros Hwf Hi Hj. apply eq_true_iff_eq.
  rewrite andb_true_iff, !sat_spec, shape0_set_entry, shape1_set_entry. split.
  - intros H. split.
    + apply (H i j x); [done..| |by apply entry_set_entry_eq].
      apply before_spec. lia.
    + intros i' j' v Hi' Hj' Hb%before_spec Hv.
      apply (H i' j' v); [done..|apply before_spec; lia|].
      rewrite entry_set_entry_ne; [done|]. intros [= -> ->]. lia.
  - intros [HP H] i' j' v Hi' Hj' Hb%before_spec Hv.
    destruct (decide ((i, j) = (i', j'))) as [[= <- <-]|Hne].
    + rewrite entry_set_entry_eq in Hv by done. by injection Hv as <-.
    + rewrite entry_set_entry_ne in Hv by done.
      apply (H i' j' v); [done..| |done]. apply before_spec.
      destruct Hb as [?|[-> ?]]; [by left|right]. split; [done|].
      assert (j' ≠ j) by congruence. lia.
Qed.

Lemma indicator_andb b1 b2 :
  indicator (b1 && b2) = (indicator b1 * indicator b2)%Qc.
Proof. destruct b1, b2; simpl; ring. Qed.

(** ** The distribution of the rank array *)

Section distribution.
Context (l1 l2 lr : loc) (d1 d2 : ndarray) (k : Z).
Context (Hwf1 : wf_ndarray d1) (Hwf2 : wf_ndarray d2).
Context (Hrows : shape0 d1 = shape0 d2).
Context (Hk0 : 0 ≤ k).
Context (Hk : (0 < shape0 d1)%nat → 0 < k → k ≤ Z.of_nat (shape1 d1) - 1).
Context (Hlr1 : lr ≠ l1) (Hlr2 : lr ≠ l2).
Context (HM2 : (shape1 d2 < shape0 d1)%nat).
Context (P : nat → nat → Z → bool).

Local Abbreviation N := (Z.of_nat (shape0 d1)).
Local Abbreviation M2 := (Z.of_nat (shape1 d2)).
Local Abbreviation written i j σ := (indicator (sat (before i j) P (arr σ lr))).

Lemma wp_fill_entry σ i j :
  loop_inv l1 l2 lr d1 d2 k σ → (i < shape0 d1)%nat → (j < Z.to_nat k)%nat →
  wp true (fill_entry lr M2 N i (hits d1 d2 i <$> range k) j σ)
    (λ o, match o with
          | Returned p => loop_inv l1 l2 lr d1 d2 k p.2
          | Raised _ => False
          end).
Proof.
  intros Hinv Hi Hj. rewrite (fill_entry_eq l1 l2 lr d1 d2 k) by done.
  destruct (hits d1 d2 i j) as [|p ps].
  - rewrite bool_decide_true by lia. simpl.
    split; [done|]. split; [lia|]. intros v _. by apply loop_inv_store.
  - simpl. by apply loop_inv_store.
Qed.

Lemma E_fill_entry σ i j :
  loop_inv l1 l2 lr d1 d2 k σ → (i < shape0 d1)%nat → (j < Z.to_nat k)%nat →
  E (fill_entry lr M2 N i (hits d1 d2 i <$> range k) j σ)
    (λ o, match o with
          | Returned p => written i (S j) p.2
          | Raised _ => 0%Qc
          end) =
  (entry_prob d1 d2 i j (P i j) * written i j σ)%Qc.
Proof.
  intros Hinv Hi Hj. rewrite (fill_entry_eq l1 l2 lr d1 d2 k) by done.
  assert (∀ x, written i (S j) (store lr (set_entry (arr σ lr) i j x) σ) =
               (written i j σ * indicator (P i j x))%Qc) as Hstep.
  { intros x. unfold store. simpl. rewrite fn_lookup_insert.
    destruct Hinv as (_ & _ & ? & ? & ?).
    rewrite sat_before_set_entry, indicator_andb by (done || lia). ring. }
  unfold entry_prob. destruct (hits d1 d2 i j) as [|p ps].
  - rewrite bool_decide_true by lia. cbn [E snd].
    rewrite (sumQc_fmap_ext _ (λ v, written i j σ * indicator (P i j v))%Qc)
      by (intros; apply Hstep).
    rewrite sumQc_fmap_scale. unfold Qcdiv. ring.
  - cbn [E snd]. rewrite Hstep. ring.
Qed.

Lemma E_fill_row σ i :
  loop_inv l1 l2 lr d1 d2 k σ → (i < shape0 d1)%nat →
  E (for_ (range k) (fill_entry lr M2 N i (hits d1 d2 i <$> range k)) σ)
    (λ o, match o with
          | Returned p => written (S i) 0 p.2
          | Raised _ => 0%Qc
          end) =
  (prodQc ((λ j, entry_prob d1 d2 i j (P i j)) <$> range k) * written i 0 σ)%Qc.
Proof.
  intros Hinv Hi. unfold range.
  apply (E_for_seq _ (λ _ σ', loop_inv l1 l2 lr d1 d2 k σ')
           (λ j σ', written i j σ')); [done|..].
  - intros j σ' Hj Hinv'. apply wp_fill_entry; (done || lia).
  - intros j σ' Hj Hinv'. apply E_fill_entry; (done || lia).
  - intros σ' (_ & _ & _ & Hshape & _). simpl.
    by rewrite <-Hshape, sat_before_row.
Qed.

Lemma wp_fill_row_inv σ i :
  loop_inv l1 l2 lr d1 d2 k σ → (i < shape0 d1)%nat →
  wp true (for_ (range k) (fill_entry lr M2 N i (hits d1 d2 i <$> range k)) σ)
    (λ o, match o with
          | Returned p => loop_inv l1 l2 lr d1 d2 k p.2
          | Raised _ => False
          end).
Proof.
  intros Hinv Hi. unfold range.
  apply (wp_for_seq true _ (λ _ σ', loop_inv l1 l2 lr d1 d2 k σ')); [done| |done].
  intros j σ' Hj Hinv'. apply wp_fill_entry; (done || lia).
Qed.

Lemma E_rows σ :
  loop_inv l1 l2 lr d1 d2 k σ →
  E (for_ (range N) (row_body l1 l2 lr k M2 N) σ)
    (λ o, match o with
          | Returned p => indicator (sat (λ _ _, true) P (arr p.2 lr))
          | Raised _ => 0%Qc
          end) =
  (prodQc ((λ i, prodQc ((λ j, entry_prob d1 d2 i j (P i j)) <$> range k))
             <$> range N) * written 0 0 σ)%Qc.
Proof.
  intros Hinv. unfold range at 1 3. rewrite Nat2Z.id.
  apply (E_for_seq _ (λ _ σ', loop_inv l1 l2 lr d1 d2 k σ')
           (λ i σ', written i 0 σ')); [done|..].
  - intros i σ' Hi Hinv'. rewrite (row_body_eq l1 l2 lr d1 d2 k) by (done || lia).
    apply wp_fill_row_inv; (done || lia).
  - intros i σ' Hi Hinv'. rewrite (row_body_eq l1 l2 lr d1 d2 k) by (done || lia).
    apply E_fill_row; (done || lia).
  - intros σ' (_ & _ & Hshape & _). simpl.
    by rewrite <-Hshape, sat_before_all.
Qed.
End distribution.

Lemma prodQc_app xs ys : prodQc (xs ++ ys) = (prodQc xs * prodQc ys)%Qc.
Proof.
  induction xs as [|x xs IH]; [change (prodQc ys = 1 * prodQc ys)%Qc; ring|].
  rewrite <-app_comm_cons, !prodQc_cons, IH. ring.
Qed.

Lemma prodQc_fmap_ext {X} (f g : X → Qc) xs :
  (∀ x, x ∈ xs → f x = g x) → prodQc (f <$> xs) = prodQc (g <$> xs).
Proof.
  induction xs as [|x xs IH]; intros Hfg; [done|].
  rewrite !fmap_cons, !prodQc_cons, Hfg by left.
  rewrite IH; [done|]. intros y Hy. apply Hfg. by right.
Qed.

Lemma prodQc_fmap_ones {X} (f : X → Qc) xs :
  (∀ x, x ∈ xs → f x = 1%Qc) → prodQc (f <$> xs) = 1%Qc.
Proof.
  induction xs as [|x xs IH]; intros Hf; [done|].
  rewrite fmap_cons, prodQc_cons, Hf by left.
  rewrite IH; [ring|]. intros y Hy. apply Hf. by right.
Qed.

(** A product over [0..n-1] whose factors are [1] except at [i0]. *)
Lemma prodQc_fmap_single (f : nat → Qc) n i0 :
  (i0 < n)%nat → (∀ i, (i < n)%nat → i ≠ i0 → f i = 1%Qc) →
  prodQc (f <$> seq 0 n) = f i0.
Proof.
  intros Hi0 Hf.
  replace n with (i0 + S (n - S i0))%nat by lia.
  rewrite seq_app, fmap_app, prodQc_app, Nat.add_0_l. cbn [seq].
  rewrite fmap_cons, prodQc_cons.
  rewrite !prodQc_fmap_ones; [ring|..].
  - intros i Hi%elem_of_seq. apply Hf; lia.
  - intros i Hi%elem_of_seq. apply Hf; lia.
Qed.

Lemma sumQc_indicator_eq (v : Z) xs :
  NoDup xs → v ∈ xs →
  sumQc ((λ x, indicator (bool_decide (x = v))) <$> xs) = 1%Qc.
Proof.
  induction 1 as [|x xs Hx Hxs IH]; intros Hv.
  - by apply elem_of_nil in Hv.
  - rewrite fmap_cons, sumQc_cons. case_bool_decide as Hxv.
    + subst x. rewrite (sumQc_fmap_ext _ (λ _, 0%Qc)).
      * rewrite sumQc_fmap_const. change (indicator true) with 1%Qc. ring.
      * intros y Hy. rewrite bool_decide_false; [done|]. by intros ->.
    + rewrite IH; [change (indicator false) with 0%Qc; ring|].
      apply elem_of_cons in Hv as [->|?]; done.
Qed.

(** A miss is in [[M2, N)] with probability one. *)
Lemma entry_prob_true d1 d2 i j :
  (shape1 d2 < shape0 d1)%nat → entry_prob d1 d2 i j (λ _, true) = 1%Qc.
Proof.
  intros HM2. unfold entry_prob. destruct (hits d1 d2 i j); [|done].
  simpl. rewrite sumQc_fmap_const, length_seqZ, Z2Nat.id by lia.
  pose proof (Qc_of_Z_ne_0 (Z.of_nat (shape0 d1) - Z.of_nat (shape1 d2))
                ltac:(lia)). by field.
Qed.

(** A miss takes each value of [[M2, N)] with the same probability. *)
Lemma entry_prob_miss d1 d2 i j v :
  hits d1 d2 i j = [] →
  Z.of_nat (shape1 d2) ≤ v < Z.of_nat (shape0 d1) →
  entry_prob d1 d2 i j (λ x, bool_decide (x = v)) =
  (1 / Qc_of_Z (Z.of_nat (shape0 d1) - Z.of_nat (shape1 d2)))%Qc.
Proof.
  intros Hhits Hv. unfold entry_prob. rewrite Hhits.
  rewrite sumQc_indicator_eq; [done|apply NoDup_seqZ|].
  apply elem_of_seqZ. lia.
Qed.

(** The joint distribution of the entries is the product of the
    distributions of the entries. *)
Lemma Pr_ranks_in l1 l2 k σ P :
  args_ok l1 l2 σ →
  shape0 (arr σ l1) = shape0 (arr σ l2) →
  0 ≤ k →
  ((0 < shape0 (arr σ l1))%nat → 0 < k → k ≤ Z.of_nat (shape1 (arr σ l1)) - 1) →
  (shape1 (arr σ l2) < shape0 (arr σ l1))%nat →
  Pr (_return_ranks l1 l2 k σ) (ranks_in P) =
  prodQc ((λ i, prodQc ((λ j, entry_prob (arr σ l1) (arr σ l2) i j (P i j))
                          <$> range k))
            <$> range (Z.of_nat (shape0 (arr σ l1)))).
Proof.
  intros (Hl1 & Hl2 & Hwf1 & Hwf2) Hrows Hk0 Hk HM2.
  unfold Pr. rewrite _return_ranks_start, E_bind by done.
  etransitivity;
    [apply (E_rows l1 l2 (next σ) (arr σ l1) (arr σ l2) k); try done; try lia|].
  - unfold loop_inv, alloc. simpl.
    rewrite !fn_lookup_insert_ne, fn_lookup_insert by lia.
    rewrite shape0_zeros. repeat split; [done..|]. apply wf_zeros.
  - rewrite sat_before_0. simpl. ring.
Qed.

(** The distribution of one entry. *)
Lemma Pr_rank_in l1 l2 k σ i0 j0 Q :
  args_ok l1 l2 σ →
  shape0 (arr σ l1) = shape0 (arr σ l2) →
  0 ≤ k →
  ((0 < shape0 (arr σ l1))%nat → 0 < k → k ≤ Z.of_nat (shape1 (arr σ l1)) - 1) →
  (shape1 (arr σ l2) < shape0 (arr σ l1))%nat →
  (i0 < shape0 (arr σ l1))%nat → (j0 < Z.to_nat k)%nat →
  Pr (_return_ranks l1 l2 k σ) (rank_in i0 j0 Q) =
  entry_prob (arr σ l1) (arr σ l2) i0 j0 Q.
Proof.
  intros Hargs Hrows Hk0 Hk HM2 Hi0 Hj0.
  set (P := λ i j, if bool_decide (i = i0 ∧ j = j0) then Q else λ _ : Z, true).
  transitivity (Pr (_return_ranks l1 l2 k σ) (ranks_in P)).
  - apply E_ext.
    eapply wp_mono; [|apply (wp_return_ranks true); done].
    intros [[lr σ']|e]; simpl; [|lia].
    intros (-> & (_ & _ & HN & Hk' & Hwf) & _). f_equal.
    destruct (wf_entry (arr σ' (next σ)) i0 j0) as [v Hv]; [done|lia..|].
    rewrite Hv. simpl. apply eq_true_iff_eq. rewrite sat_spec. split.
    + intros HQ i j v' _ _ _ Hv'. unfold P. case_bool_decide as Hij; [|done].
      destruct Hij as [-> ->]. congruence.
    + intros H. specialize (H i0 j0 v). unfold P in H.
      rewrite bool_decide_true in H by done. apply H; (done || lia).
  - rewrite Pr_ranks_in by done. unfold range. rewrite Nat2Z.id.
    rewrite (prodQc_fmap_single _ _ i0) by
      (done ||
       intros i Hi Hne; apply prodQc_fmap_ones; intros j _; unfold P;
       rewrite bool_decide_false by (intros [? ?]; done);
       by apply entry_prob_true).
    rewrite (prodQc_fmap_single _ _ j0).
    + unfold P. by rewrite bool_decide_true.
    + done.
    + intros j Hj Hne. unfold P.
      rewrite bool_decide_false by (intros [? ?]; done).
      by apply entry_prob_true.
Qed.

(** * The claims *)





(** C3: with [M2 < N], the rank of a neighbour that is not in its row of
    the second matrix is an integer of [[M2, N)], each with probability
    [1 / (N - M2)]; and the entries of the rank array are independent: for
    any events on the entries, the probability that all hold is the product
    of their probabilities. *)
Theorem miss_rank_uniform l1 l2 k σ :
  args_ok l1 l2 σ →
  shape0 (arr σ l1) = shape0 (arr σ l2) →
  1 ≤ k ≤ Z.of_nat (shape1 (arr σ l1)) - 1 →
  (shape1 (arr σ l2) < shape0 (arr σ l1))%nat →
  (∀ i j n r,
     Z.of_nat j < k →
     neighbour (arr σ l1) i j = Some n →
     rows (arr σ l2) !! i = Some r →
     n ∉ r →
     wp true (_return_ranks l1 l2 k σ)
       (λ o, match o with
             | Returned (lr, σ') =>
                 ∃ x, entry (arr σ' lr) i j = Some x ∧
                      Z.of_nat (shape1 (arr σ l2)) ≤ x < Z.of_nat (shape0 (arr σ l1))
             | Raised _ => False
             end) ∧
     ∀ v, Z.of_nat (shape1 (arr σ l2)) ≤ v < Z.of_nat (shape0 (arr σ l1)) →
          Pr (_return_ranks l1 l2 k σ) (rank_in i j (λ x, bool_decide (x = v))) =
          (1 / Qc_of_Z (Z.of_nat (shape0 (arr σ l1)) - Z.of_nat (shape1 (arr σ l2))))%Qc) ∧
  (∀ P : nat → nat → Z → bool,
     Pr (_return_ranks l1 l2 k σ) (ranks_in P) =
     prodQc ((λ i, prodQc ((λ j, Pr (_return_ranks l1 l2 k σ) (rank_in i j (P i j)))
                             <$> range k))
               <$> range (Z.of_nat (shape0 (arr σ l1))))).
Proof.
  intros Hargs Hrows Hk HM2. split.
  - intros i j n r Hj Hn Hr Hin.
    assert (i < shape0 (arr σ l1))%nat as Hi.
    { rewrite Hrows. by eapply lookup_lt_Some. }
    split.
    + eapply wp_mono; [|apply (wp_return_ranks true); [done|done|lia|lia|done]].
      intros [[lr σ']|e]; simpl; [|lia].
      intros (-> & _ & Hok). eapply entry_ok_miss; [|done..].
      apply Hok; [done|lia].
    + intros v Hv. rewrite Pr_rank_in by (done || lia).
      apply entry_prob_miss; [|done]. by apply (hits_nil _ _ i j n r).
  - intros P. rewrite Pr_ranks_in by (done || lia).
    apply prodQc_fmap_ext. intros i Hi%elem_of_seq.
    apply prodQc_fmap_ext. intros j Hj%elem_of_seq.
    symmetry. apply Pr_rank_in; (done || lia).
Qed.

(** Three points, one candidate column: every neighbour is a miss and its
    rank is [1] or [2], each with probability [1 / 2]. *)
Lemma miss_rank_uniform_witness :
  Pr (_return_ranks 0 1 1
        (heap_of [Ndarray 2 [[0; 1]; [1; 0]; [2; 0]]; Ndarray 1 [[0]; [1]; [2]]]))
     (rank_in 0 0 (λ x, bool_decide (x = 2))) =
  (1 / Qc_of_Z (3 - 1))%Qc.
Proof.
  destruct (miss_rank_uniform 0 1 1
              (heap_of [Ndarray 2 [[0; 1]; [1; 0]; [2; 0]]; Ndarray 1 [[0]; [1]; [2]]]))
    as [H _].
  - args_ok_tac.
  - done.
  - simpl. lia.
  - unfold shape0. simpl. lia.
  - destruct (H 0%nat 0%nat 1 [0]) as [_ H2].
    + lia.
    + done.
    + done.
    + by apply (bool_decide_unpack _).
    + apply (H2 2). unfold shape0. simpl. lia.
Defined.




(** C5: when the two matrices differ in their number of rows, both
    functions stop at their first statement with the [AssertionError] of
    the failed [assert] (the condition the specification calls
    ShapeMismatch): there is no result, the random source is not asked,
    and nothing in either function catches the exception. *)
Theorem row_count_mismatch l1 l2 k σ :
  shape0 (arr σ l1) ≠ shape0 (arr σ l2) →
  _return_ranks l1 l2 k σ = Raise AssertionError ∧
  _return_imbalance l1 l2 k σ = Raise AssertionError.
Proof.
  intros Hrows. split; [by apply _return_ranks_assert|].
  unfold _return_imbalance, mbind, M_bind, shape_0. simpl.
  rewrite bool_decide_false; [done|]. intros ?. apply Hrows. lia.
Qed.

(** Row counts 5 and 6. *)
Lemma row_count_mismatch_witness :
  let σ := heap_of [Ndarray 2 [[0; 1]; [1; 0]; [2; 1]; [3; 2]; [4; 3]];
                    Ndarray 2 [[0; 1]; [1; 0]; [2; 1]; [3; 2]; [4; 3]; [5; 4]]] in
  _return_ranks 0 1 1 σ = Raise AssertionError ∧
  _return_imbalance 0 1 1 σ = Raise AssertionError.
Proof. intros σ. apply row_count_mismatch. vm_compute. lia. Defined.

(** C6: on two matrices with the same number [N] of rows and a [k] with
    [1 <= k <= M1 - 1], the array that [_return_ranks] returns has [N] rows
    and [k] columns.  The only way not to return is the [ValueError] of
    [np.random.randint], which needs [N <= M2]. *)
Theorem return_ranks_shape l1 l2 k σ :
  args_ok l1 l2 σ →
  shape0 (arr σ l1) = shape0 (arr σ l2) →
  1 ≤ k ≤ Z.of_nat (shape1 (arr σ l1)) - 1 →
  wp true (_return_ranks l1 l2 k σ)
    (λ o, match o with
          | Returned (lr, σ') =>
              shape0 (arr σ' lr) = shape0 (arr σ l1) ∧
              Z.of_nat (shape1 (arr σ' lr)) = k ∧
              wf_ndarray (arr σ' lr)
          | Raised e =>
              e = ValueError ∧ (shape0 (arr σ l1) ≤ shape1 (arr σ l2))%nat
          end).
Proof.
  intros Hargs Hrows Hk.
  eapply wp_mono; [|apply wp_return_ranks; [done|done|lia|lia|done]].
  intros [[lr σ']|e]; simpl.
  - intros (-> & (_ & _ & ? & ? & ?) & _). repeat split; [done|lia|done].
  - intros (-> & ? & _). split; [done|lia].
Qed.

Lemma return_ranks_shape_witness :
  wp true (_return_ranks 0 0 3 (heap_of [d4]))
    (λ o, match o with
          | Returned (lr, σ') =>
              shape0 (arr σ' lr) = 4%nat ∧
              Z.of_nat (shape1 (arr σ' lr)) = 3 ∧
              wf_ndarray (arr σ' lr)
          | Raised e => e = ValueError ∧ (4 ≤ 4)%nat
          end).
Proof.
  apply (return_ranks_shape 0 0 3 (heap_of [d4])); [args_ok_tac|done|simpl; lia].
Defined.

(** C7: when every neighbour that is looked for is found, [_return_ranks]
    never asks the random source: whatever [np.random.randint] is and
    whatever state the source is in, a run returns the same array and
    leaves the source in the state it was in. *)
Theorem return_ranks_deterministic l1 l2 k σ :
  args_ok l1 l2 σ →
  shape0 (arr σ l1) = shape0 (arr σ l2) →
  1 ≤ k ≤ Z.of_nat (shape1 (arr σ l1)) - 1 →
  no_miss (arr σ l1) (arr σ l2) k →
  ∃ out, ∀ (G : Type) (randint : G → Z → Z → Z * G) (g : G),
    run randint (_return_ranks l1 l2 k σ) g = (Returned out, g).
Proof.
  intros Hargs Hrows Hk Hno.
  destruct (wp_leaf (_return_ranks l1 l2 k σ) _
              (wp_return_ranks false l1 l2 k σ Hargs Hrows ltac:(lia) ltac:(lia)
                 ltac:(intros _ i j Hi Hj Hhits;
                       by destruct (no_miss_hits (arr σ l1) (arr σ l2) k i j
                                      ltac:(apply Hargs) Hrows ltac:(lia) Hno Hi Hj))))
    as ([out|e] & -> & Hpost).
  - exists out. intros G randint g. apply (run_leaf randint (Returned out)).
  - destruct Hpost as (_ & _ & i & j & Hi & Hj & Hhits).
    by destruct (no_miss_hits (arr σ l1) (arr σ l2) k i j
                   ltac:(apply Hargs) Hrows ltac:(lia) Hno Hi Hj).
Qed.

Lemma return_ranks_deterministic_witness :
  ∃ out, ∀ (G : Type) (randint : G → Z → Z → Z * G) (g : G),
    run randint (_return_ranks 0 0 3 (heap_of [d4])) g = (Returned out, g).
Proof.
  apply (return_ranks_deterministic 0 0 3 (heap_of [d4]));
    [args_ok_tac|done|simpl; lia|].
  intros i j n r Hj Hn Hr.
  do 4 (destruct i as [|i];
        [do 3 (destruct j as [|j];
               [injection Hn as <-; injection Hr as <-;
                by apply (bool_decide_unpack _)|]); lia|]).
  discriminate Hr.
Defined.

(** C8: a neighbour that occurs in the row of the second matrix gets, as
    its conditional rank, the first position at which it occurs there. *)
Theorem return_ranks_first_match l1 l2 k σ :
  args_ok l1 l2 σ →
  shape0 (arr σ l1) = shape0 (arr σ l2) →
  1 ≤ k ≤ Z.of_nat (shape1 (arr σ l1)) - 1 →
  wp true (_return_ranks l1 l2 k σ)
    (λ o, match o with
          | Returned (lr, σ') =>
              ∀ i j n r,
                Z.of_nat j < k →
                neighbour (arr σ l1) i j = Some n →
                rows (arr σ l2) !! i = Some r →
                n ∈ r →
                ∃ p, first_at n r p ∧ entry (arr σ' lr) i j = Some (Z.of_nat p)
          | Raised e =>
              e = ValueError ∧ (shape0 (arr σ l1) ≤ shape1 (arr σ l2))%nat
          end).
Proof.
  intros Hargs Hrows Hk.
  eapply wp_mono; [|apply wp_return_ranks; [done|done|lia|lia|done]].
  intros [[lr σ']|e]; simpl.
  - intros (-> & _ & Hok) i j n r Hj Hn Hr Hin.
    eapply entry_ok_hit; [|done..]. apply Hok; [|lia].
    rewrite Hrows. by eapply lookup_lt_Some.
  - intros (-> & ? & _). split; [done|lia].
Qed.

(** A row of the second matrix in which the neighbour [1] of point [0]
    occurs twice, at positions [2] and [3]: its rank is [2]. *)
Lemma return_ranks_first_match_witness :
  wp true (_return_ranks 0 1 1
             (heap_of [Ndarray 2 [[0; 1]; [1; 0]];
                       Ndarray 4 [[0; 5; 1; 1]; [1; 0; 0; 0]]]))
    (λ o, match o with
          | Returned (lr, σ') =>
              ∀ i j n r,
                Z.of_nat j < 1 →
                neighbour (Ndarray 2 [[0; 1]; [1; 0]]) i j = Some n →
                rows (Ndarray 4 [[0; 5; 1; 1]; [1; 0; 0; 0]]) !! i = Some r →
                n ∈ r →
                ∃ p, first_at n r p ∧ entry (arr σ' lr) i j = Some (Z.of_nat p)
          | Raised e => e = ValueError ∧ (2 ≤ 4)%nat
          end).
Proof.
  apply (return_ranks_first_match 0 1 1
           (heap_of [Ndarray 2 [[0; 1]; [1; 0]];
                     Ndarray 4 [[0; 5; 1; 1]; [1; 0; 0; 0]]]));
    [args_ok_tac|done|simpl; lia].
Defined.

(** C9: neither function changes its input arrays.  A call that returns
    leaves every array that was in the store before the call as it was, the
    two inputs among them (also when both arguments are the same array);
    the array that [_return_ranks] returns is a new one. *)
Theorem inputs_unchanged l1 l2 k σ :
  (l1 < next σ)%nat → (l2 < next σ)%nat →
  wp true (_return_ranks l1 l2 k σ)
    (λ o, match o with
          | Returned (lr, σ') =>
              arr σ' l1 = arr σ l1 ∧ arr σ' l2 = arr σ l2 ∧
              (∀ l, (l < next σ)%nat → arr σ' l = arr σ l) ∧
              lr = next σ
          | Raised _ => True
          end) ∧
  wp true (_return_imbalance l1 l2 k σ)
    (λ o, match o with
          | Returned (_, σ') =>
              arr σ' l1 = arr σ l1 ∧ arr σ' l2 = arr σ l2 ∧
              (∀ l, (l < next σ)%nat → arr σ' l = arr σ l)
          | Raised _ => True
          end).
Proof.
  intros Hl1 Hl2. split.
  - eapply wp_mono; [|apply _return_ranks_frame].
    intros [[lr σ']|e]; simpl; [|done]. intros (-> & _ & Harr). auto.
  - eapply wp_mono; [|apply _return_imbalance_frame].
    intros [[lr σ']|e]; simpl; [|done]. intros Harr. auto.
Qed.

(** Both arguments are the same array. *)
Lemma inputs_unchanged_witness :
  wp true (_return_ranks 0 0 2 (heap_of [d4]))
    (λ o, match o with
          | Returned (lr, σ') =>
              arr σ' 0 = d4 ∧ arr σ' 0 = d4 ∧
              (∀ l, (l < 1)%nat → arr σ' l = arr (heap_of [d4]) l) ∧
              lr = 1%nat
          | Raised _ => True
          end) ∧
  wp true (_return_imbalance 0 0 2 (heap_of [d4]))
    (λ o, match o with
          | Returned (_, σ') =>
              arr σ' 0 = d4 ∧ arr σ' 0 = d4 ∧
              (∀ l, (l < 1)%nat → arr σ' l = arr (heap_of [d4]) l)
          | Raised _ => True
          end).
Proof. apply (inputs_unchanged 0 0 2 (heap_of [d4])); simpl; lia. Defined.

(** C10: when a neighbour is missing from its row of the second matrix and
    the second matrix has at least as many columns as there are rows
    ([M2 >= N]), [_return_ranks] fails: the first miss asks
    [np.random.randint] for an integer of the empty range [[M2, N)], which
    raises [ValueError]. *)
Theorem return_ranks_empty_range l1 l2 k σ i j n r :
  args_ok l1 l2 σ →
  shape0 (arr σ l1) = shape0 (arr σ l2) →
  1 ≤ k ≤ Z.of_nat (shape1 (arr σ l1)) - 1 →
  Z.of_nat j < k →
  neighbour (arr σ l1) i j = Some n →
  rows (arr σ l2) !! i = Some r →
  n ∉ r →
  (shape0 (arr σ l1) ≤ shape1 (arr σ l2))%nat →
  _return_ranks l1 l2 k σ = Raise ValueError.
Proof.
  intros Hargs Hrows Hk Hj Hn Hr Hin HM2.
  destruct (wp_leaf (_return_ranks l1 l2 k σ) _
              (wp_return_ranks false l1 l2 k σ Hargs Hrows ltac:(lia) ltac:(lia)
                 ltac:(intros; lia)))
    as ([[lr σ']|e] & -> & Hpost); simpl in *.
  - destruct Hpost as (_ & _ & Hok).
    destruct (entry_ok_miss _ _ _ i j n r
                (Hok i j ltac:(rewrite Hrows; by eapply lookup_lt_Some) ltac:(lia))
                Hn Hr Hin) as (v & _ & ?). lia.
  - by destruct Hpost as [-> _].
Qed.

(** Two points, two columns in the second matrix, and the neighbour [1] of
    point [0] is not in its row. *)
Lemma return_ranks_empty_range_witness :
  _return_ranks 0 1 1
    (heap_of [Ndarray 2 [[0; 1]; [1; 0]]; Ndarray 2 [[0; 5]; [1; 0]]]) =
  Raise ValueError.
Proof.
  apply (return_ranks_empty_range 0 1 1
           (heap_of [Ndarray 2 [[0; 1]; [1; 0]]; Ndarray 2 [[0; 5]; [1; 0]]])
           0 0 1 [0; 5]).
  - args_ok_tac.
  - done.
  - simpl; lia.
  - lia.
  - done.
  - done.
  - by apply (bool_decide_unpack _).
  - unfold shape0; simpl; lia.
Defined.

(** * Further properties *)

Lemma _return_imbalance_assert l1 l2 k σ :
  shape0 (arr σ l1) ≠ shape0 (arr σ l2) →
  _return_imbalance l1 l2 k σ = Raise AssertionError.
Proof.
  intros Hrows. unfold _return_imbalance, mbind, M_bind, shape_0. simpl.
  rewrite bool_decide_false; [done|]. intros ?. apply Hrows. lia.
Qed.

(** X1: [_return_imbalance] adds no failure of its own.  Whatever the
    arguments, on the same draws it returns when [_return_ranks] returns and
    raises the exception that [_return_ranks] raises; in particular the
    division by [N / 2] never raises, also when there is no row. *)
Theorem imbalance_fails_as_ranks l1 l2 k σ :
  coupled
    (λ o1 o2,
       match o1, o2 with
       | Returned _, Returned _ => True
       | Raised e1, Raised e2 => e1 = e2
       | _, _ => False
       end)
    (_return_ranks l1 l2 k σ) (_return_imbalance l1 l2 k σ).
Proof.
  destruct (decide (shape0 (arr σ l1) = shape0 (arr σ l2))) as [Hrows|Hrows].
  - rewrite _return_imbalance_unfold by done.
    eapply coupled_bind_ret; [apply _return_ranks_frame|done..].
  - by rewrite _return_ranks_assert, _return_imbalance_assert.
Qed.



(** ** Bounds *)

Lemma entry_ok_bounds d1 d2 a i j n r :
  wf_ndarray d2 →
  entry_ok d1 d2 a i j →
  neighbour d1 i j = Some n → rows d2 !! i = Some r →
  ∃ x, entry a i j = Some x ∧
       0 ≤ x < Z.max (Z.of_nat (shape1 d2)) (Z.of_nat (shape0 d1)) ∧
       ((0 < shape1 d2)%nat → r !! 0%nat ≠ Some n → 1 ≤ x).
Proof.
  intros Hwf Hok Hn Hr. unfold entry_ok in Hok.
  destruct (hits d1 d2 i j) as [|p ps] eqn:Hhits.
  - destruct Hok as (x & Hx & ?). exists x. split; [done|]. split; lia.
  - apply (hits_cons d1 d2 i j n r) in Hhits as [Hp Hfirst]; [|done..].
    exists (Z.of_nat p). split; [done|].
    pose proof (lookup_lt_Some _ _ _ Hp) as Hlt.
    rewrite (wf_row d2 i r) in Hlt by done. split; [lia|].
    intros _ H0. destruct p; [done|lia].
Qed.








(** X3: every rank is a position or a drawn rank.  On valid input each
    entry of the returned array is a non-negative integer below
    [max(M2, N)], and it is at least [1] unless the neighbour it stands for is
    the first entry of its row in the second matrix (the place of the point
    itself). *)
Theorem rank_bounds l1 l2 k σ :
  args_ok l1 l2 σ →
  shape0 (arr σ l1) = shape0 (arr σ l2) →
  1 ≤ k ≤ Z.of_nat (shape1 (arr σ l1)) - 1 →
  wp true (_return_ranks l1 l2 k σ)
    (λ o, match o with
          | Returned (lr, σ') =>
              ∀ i j n r,
                Z.of_nat j < k →
                neighbour (arr σ l1) i j = Some n →
                rows (arr σ l2) !! i = Some r →
                ∃ x, entry (arr σ' lr) i j = Some x ∧
                     0 ≤ x < Z.max (Z.of_nat (shape1 (arr σ l2)))
                                   (Z.of_nat (shape0 (arr σ l1))) ∧
                     ((0 < shape1 (arr σ l2))%nat → r !! 0%nat ≠ Some n → 1 ≤ x)
          | Raised e =>
              e = ValueError ∧ (shape0 (arr σ l1) ≤ shape1 (arr σ l2))%nat
          end).
Proof.
  intros Hargs Hrows Hk.
  eapply wp_mono; [|apply wp_return_ranks; [done|done|lia|lia|done]].
  intros [[lr σ']|e]; simpl.
  - intros (-> & _ & Hok) i j n r Hj Hn Hr.
    eapply entry_ok_bounds; [apply Hargs| |done..]. apply Hok; [|lia].
    rewrite Hrows. by eapply lookup_lt_Some.
  - intros (-> & ? & _). split; [done|lia].
Qed.

(** Two candidate columns for four points: ranks in [[0, 4)]. *)
Lemma rank_bounds_witness :
  wp true (_return_ranks 0 1 2
             (heap_of [d4; Ndarray 2 [[0; 1]; [1; 0]; [2; 3]; [3; 2]]]))
    (λ o, match o with
          | Returned (lr, σ') =>
              ∀ i j n r,
                Z.of_nat j < 2 →
                neighbour d4 i j = Some n →
                rows (Ndarray 2 [[0; 1]; [1; 0]; [2; 3]; [3; 2]]) !! i = Some r →
                ∃ x, entry (arr σ' lr) i j = Some x ∧
                     0 ≤ x < Z.max (Z.of_nat 2) (Z.of_nat 4) ∧
                     ((0 < 2)%nat → r !! 0%nat ≠ Some n → 1 ≤ x)
          | Raised e => e = ValueError ∧ (4 ≤ 2)%nat
          end).
Proof.
  apply (rank_bounds 0 1 2
           (heap_of [d4; Ndarray 2 [[0; 1]; [1; 0]; [2; 3]; [3; 2]]]));
    [args_ok_tac|done|simpl; lia].
Defined.



(** ** Counting the draws *)




Section count.
Context (l1 l2 lr : loc) (d1 d2 : ndarray) (k : Z).
Context (Hwf1 : wf_ndarray d1) (Hwf2 : wf_ndarray d2).
Context (Hrows : shape0 d1 = shape0 d2).
Context (Hk0 : 0 ≤ k).
Context (Hk : (0 < shape0 d1)%nat → 0 < k → k ≤ Z.of_nat (shape1 d1) - 1).
Context (Hlr1 : lr ≠ l1) (Hlr2 : lr ≠ l2).
Context (HM2 : (shape1 d2 < shape0 d1)%nat).

Local Abbreviation N := (Z.of_nat (shape0 d1)).
Local Abbreviation M2 := (Z.of_nat (shape1 d2)).


End count.



(** ** What the ranks depend on *)

Lemma loop_inv_start l1 l2 k σ :
  (l1 < next σ)%nat → (l2 < next σ)%nat →
  loop_inv l1 l2 (next σ) (arr σ l1) (arr σ l2) k
    (alloc (Ndarray (Z.to_nat k)
              (replicate (shape0 (arr σ l1)) (replicate (Z.to_nat k) 0))) σ).2.
Proof.
  intros Hl1 Hl2. unfold loop_inv, alloc. simpl.
  rewrite !fn_lookup_insert_ne, fn_lookup_insert by lia.
  rewrite shape0_zeros. repeat split; [done..|]. apply wf_zeros.
Qed.

Lemma coupled_bind {A1 A2 B1 B2} (R1 : outcome A1 → outcome A2 → Prop)
    (R : outcome B1 → outcome B2 → Prop)
    (t1 : rand A1) (t2 : rand A2) (f : A1 → rand B1) (g : A2 → rand B2) :
  coupled R1 t1 t2 →
  (∀ a b, R1 (Returned a) (Returned b) → coupled R (f a) (g b)) →
  (∀ e1 e2, R1 (Raised e1) (Raised e2) → R (Raised e1) (Raised e2)) →
  (∀ a e, ¬ R1 (Returned a) (Raised e)) →
  (∀ e b, ¬ R1 (Raised e) (Returned b)) →
  coupled R (rbind t1 f) (rbind t2 g).
Proof.
  intros Ht Hret Hraise Hne1 Hne2. revert t2 Ht.
  induction t1 as [a|e|low high k IH]; intros [b|e'|low' high' k']; simpl;
    try done; auto.
  - intros ?. by destruct (Hne1 a e').
  - intros ?. by destruct (Hne2 e b).
  - intros (-> & -> & Hk). auto.
Qed.

(** Two loops that run in step. *)
Lemma coupled_for_seq (b1 b2 : nat → M unit) (I : nat → heap → heap → Prop)
    (R : outcome (unit * heap) → outcome (unit * heap) → Prop) n : ∀ s σ1 σ2,
  I s σ1 σ2 →
  (∀ i σ1' σ2', (s ≤ i < s + n)%nat → I i σ1' σ2' →
     coupled (λ o1 o2, match o1, o2 with
                       | Returned p1, Returned p2 => I (S i) p1.2 p2.2
                       | Raised e1, Raised e2 => R (Raised e1) (Raised e2)
                       | _, _ => False
                       end) (b1 i σ1') (b2 i σ2')) →
  (∀ σ1' σ2', I (s + n)%nat σ1' σ2' → R (Returned ((), σ1')) (Returned ((), σ2'))) →
  coupled R (for_ (seq s n) b1 σ1) (for_ (seq s n) b2 σ2).
Proof.
  induction n as [|n IH]; intros s σ1 σ2 HI Hbody HR; cbn [seq for_].
  - apply HR. by rewrite Nat.add_0_r.
  - unfold mbind, M_bind.
    eapply coupled_bind; [apply (Hbody s σ1 σ2); [lia|done]|..].
    + intros [[] σ1'] [[] σ2'] HI'. simpl in *.
      apply IH; [done| |].
      * intros i σ1'' σ2'' ?. apply Hbody. lia.
      * intros σ1'' σ2''. replace (S s + n)%nat with (s + S n)%nat by lia.
        apply HR.
    + by intros e1 e2 ?.
    + by intros a e ?.
    + by intros e b ?.
Qed.

Section same_hits.
Context (l1 l2 lr : loc) (d1 d2 : ndarray).
Context (l1' l2' lr' : loc) (d1' d2' : ndarray).
Context (k : Z).
Context (Hwf1 : wf_ndarray d1) (Hwf2 : wf_ndarray d2).
Context (Hwf1' : wf_ndarray d1') (Hwf2' : wf_ndarray d2').
Context (Hrows : shape0 d1 = shape0 d2) (Hrows' : shape0 d1' = shape0 d2').
Context (Hk0 : 0 ≤ k).
Context (Hk : (0 < shape0 d1)%nat → 0 < k → k ≤ Z.of_nat (shape1 d1) - 1).
Context (Hk' : (0 < shape0 d1')%nat → 0 < k → k ≤ Z.of_nat (shape1 d1') - 1).
Context (Hlr1 : lr ≠ l1) (Hlr2 : lr ≠ l2).
Context (Hlr1' : lr' ≠ l1') (Hlr2' : lr' ≠ l2').
Context (HN : shape0 d1 = shape0 d1') (HM2 : shape1 d2 = shape1 d2').
Context (Hhits : ∀ i j, (i < shape0 d1)%nat → (j < Z.to_nat k)%nat →
                        hits d1 d2 i j = hits d1' d2' i j).

Local Abbreviation in_step :=
  (in_step l1 l2 lr d1 d2 l1' l2' lr' d1' d2' k).

Lemma coupled_rows σ1 σ2 :
  in_step σ1 σ2 →
  coupled (λ o1 o2, match o1, o2 with
                    | Returned p1, Returned p2 => arr p1.2 lr = arr p2.2 lr'
                    | Raised e1, Raised e2 => e1 = e2
                    | _, _ => False
                    end)
    (for_ (range (Z.of_nat (shape0 d1)))
       (row_body l1 l2 lr k (Z.of_nat (shape1 d2)) (Z.of_nat (shape0 d1))) σ1)
    (for_ (range (Z.of_nat (shape0 d1')))
       (row_body l1' l2' lr' k (Z.of_nat (shape1 d2')) (Z.of_nat (shape0 d1'))) σ2).
Proof.
  intros Hstep. rewrite <-HN, <-HM2. unfold range. rewrite Nat2Z.id.
  apply (coupled_for_seq _ _ (λ _, in_step)); [done| |by intros ?? (_ & _ & ?)].
  intros i σ1' σ2' Hi (Hinv & Hinv' & Harr).
  rewrite (row_body_eq l1 l2 lr d1 d2 k) by (done || lia).
  rewrite HN, HM2.
  rewrite (row_body_eq l1' l2' lr' d1' d2' k) by (done || lia).
  rewrite <-HN, <-HM2. unfold range.
  apply (coupled_for_seq _ _ (λ _, in_step)); [done| |done].
  intros j σ1'' σ2'' Hj (Hinv1 & Hinv2 & Harr').
  rewrite (fill_entry_eq l1 l2 lr d1 d2 k) by (done || lia).
  rewrite HN, HM2.
  rewrite (fill_entry_eq l1' l2' lr' d1' d2' k) by (done || lia).
  rewrite <-HN, <-HM2. rewrite <-(Hhits i j) by lia. rewrite Harr'.
  destruct (hits d1 d2 i j) as [|p ps].
  - case_bool_decide; simpl; [|done].
    split; [done|]. split; [done|]. intros v _.
    split; [rewrite <-Harr'; by apply loop_inv_store|].
    split; [by apply loop_inv_store|].
    unfold store. simpl. by rewrite !fn_lookup_insert.
  - simpl.
    split; [rewrite <-Harr'; by apply loop_inv_store|].
    split; [by apply loop_inv_store|].
    unfold store. simpl. by rewrite !fn_lookup_insert.
Qed.
End same_hits.

(** X6: the first matrix counts through its columns [1..k] only.  Two
    calls with the same second matrix, on first matrices that agree on
    columns [1] to [k] (they may differ in column [0], in the columns beyond
    [k] and in their number), draw the same ranges in the same order and,
    given the same draws, return equal arrays or raise the same exception;
    where the arrays are in the store does not matter either. *)
Theorem ranks_depend_on_columns_1_to_k l1 l2 σ l1' l2' σ' k :
  args_ok l1 l2 σ →
  args_ok l1' l2' σ' →
  arr σ l2 = arr σ' l2' →
  shape0 (arr σ l1) = shape0 (arr σ l2) →
  shape0 (arr σ' l1') = shape0 (arr σ l2) →
  1 ≤ k ≤ Z.of_nat (shape1 (arr σ l1)) - 1 →
  k ≤ Z.of_nat (shape1 (arr σ' l1')) - 1 →
  (∀ i j, Z.of_nat j < k →
          neighbour (arr σ l1) i j = neighbour (arr σ' l1') i j) →
  coupled
    (λ o1 o2,
       match o1, o2 with
       | Returned (lr, σ1), Returned (lr', σ1') => arr σ1 lr = arr σ1' lr'
       | Raised e1, Raised e2 => e1 = e2
       | _, _ => False
       end)
    (_return_ranks l1 l2 k σ) (_return_ranks l1' l2' k σ').
Proof.
  intros (Hl1 & Hl2 & Hwf1 & Hwf2) (Hl1' & Hl2' & Hwf1' & Hwf2') Hd2 Hrows Hrows'
    Hk Hk' Hcols.
  rewrite !_return_ranks_start by (lia || congruence).
  eapply coupled_bind;
    [apply (coupled_rows l1 l2 (next σ) (arr σ l1) (arr σ l2)
              l1' l2' (next σ') (arr σ' l1') (arr σ' l2') k);
     try done; try lia; try congruence|..].
  - intros i j Hi Hj. unfold hits. rewrite Hcols by lia. by rewrite Hd2.
  - split; [by apply loop_inv_start|]. split; [by apply loop_inv_start|].
    unfold alloc. simpl. rewrite !fn_lookup_insert. f_equal. f_equal. congruence.
  - by intros [[] σ1] [[] σ1'] ?.
  - by intros e1 e2 ?.
  - by intros a e ?.
  - by intros e b ?.
Qed.

(** The first matrix of the example, and one with other entries in column
    [0] and without column [3]; [k = 2]. *)
Lemma ranks_depend_on_columns_1_to_k_witness :
  coupled
    (λ o1 o2,
       match o1, o2 with
       | Returned (lr, σ1), Returned (lr', σ1') => arr σ1 lr = arr σ1' lr'
       | Raised e1, Raised e2 => e1 = e2
       | _, _ => False
       end)
    (_return_ranks 0 1 2
       (heap_of [d4; Ndarray 2 [[0; 1]; [1; 0]; [2; 3]; [3; 2]]]))
    (_return_ranks 1 0 2
       (heap_of [Ndarray 2 [[0; 1]; [1; 0]; [2; 3]; [3; 2]];
                 Ndarray 3 [[9; 1; 2]; [9; 0; 2]; [9; 3; 0]; [9; 2; 1]]])).
Proof.
  apply (ranks_depend_on_columns_1_to_k 0 1
           (heap_of [d4; Ndarray 2 [[0; 1]; [1; 0]; [2; 3]; [3; 2]]])
           1 0
           (heap_of [Ndarray 2 [[0; 1]; [1; 0]; [2; 3]; [3; 2]];
                     Ndarray 3 [[9; 1; 2]; [9; 0; 2]; [9; 3; 0]; [9; 2; 1]]]) 2).
  - args_ok_tac.
  - args_ok_tac.
  - done.
  - done.
  - done.
  - simpl. lia.
  - simpl. lia.
  - intros i j Hj.
    do 4 (destruct i as [|i]; [do 2 (destruct j as [|j]; [done|]); lia|]).
    done.
Defined.

(** ** The expected imbalance *)











Section expected_total.
Context (l1 l2 lr : loc) (d1 d2 : ndarray) (k : Z).
Context (Hwf1 : wf_ndarray d1) (Hwf2 : wf_ndarray d2).
Context (Hrows : shape0 d1 = shape0 d2).
Context (Hk0 : 0 ≤ k).
Context (Hk : (0 < shape0 d1)%nat → 0 < k → k ≤ Z.of_nat (shape1 d1) - 1).
Context (Hlr1 : lr ≠ l1) (Hlr2 : lr ≠ l2).
Context (HM2 : (shape1 d2 < shape0 d1)%nat).

Local Abbreviation N := (Z.of_nat (shape0 d1)).
Local Abbreviation M2 := (Z.of_nat (shape1 d2)).
Local Abbreviation under_way i j σ :=
  (loop_inv l1 l2 lr d1 d2 k σ ∧ zeros_from lr (shape0 d1) (Z.to_nat k) i j σ).





End expected_total.



(** ** Renaming the points *)

Lemma positions_relabel (π : Z → Z) `{!Inj (=) (=) π} n r :
  positions (π n) (π <$> r) = positions n r.
Proof.
  unfold positions. rewrite <-list_fmap_compose. f_equal.
  apply list_fmap_ext. intros _ y _. simpl.
  apply bool_decide_ext. split; [apply (inj π)|congruence].
Qed.

Lemma hits_relabel (π : Z → Z) `{!Inj (=) (=) π} d1 d2 i j :
  hits (relabel π d1) (relabel π d2) i j = hits d1 d2 i j.
Proof.
  unfold hits, neighbour, entry, relabel. simpl.
  rewrite !list_lookup_fmap.
  destruct (rows d1 !! i) as [r1|]; simpl; [|done].
  rewrite list_lookup_fmap. destruct (r1 !! S j) as [n|]; simpl; [|done].
  destruct (rows d2 !! i) as [r2|]; simpl; [|done].
  by apply positions_relabel.
Qed.

Lemma wf_relabel π a : wf_ndarray a → wf_ndarray (relabel π a).
Proof.
  unfold wf_ndarray, relabel. simpl. intros Hwf.
  rewrite Forall_fmap. eapply Forall_impl; [|exact Hwf].
  intros r Hr. simpl. by rewrite length_fmap.
Qed.

Lemma shape0_relabel π a : shape0 (relabel π a) = shape0 a.
Proof. unfold shape0, relabel. simpl. apply length_fmap. Qed.

(** X8: only the equality of indices counts.  Renaming the points by an
    injective function in both matrices changes nothing: the two calls draw
    the same ranges in the same order and, given the same draws, return
    equal arrays or raise the same exception. *)
Theorem ranks_of_relabelled (π : Z → Z) l1 l2 σ l1' l2' σ' k :
  Inj (=) (=) π →
  args_ok l1 l2 σ →
  (l1' < next σ')%nat → (l2' < next σ')%nat →
  arr σ' l1' = relabel π (arr σ l1) →
  arr σ' l2' = relabel π (arr σ l2) →
  shape0 (arr σ l1) = shape0 (arr σ l2) →
  1 ≤ k ≤ Z.of_nat (shape1 (arr σ l1)) - 1 →
  coupled
    (λ o1 o2,
       match o1, o2 with
       | Returned (lr, σ1), Returned (lr', σ1') => arr σ1 lr = arr σ1' lr'
       | Raised e1, Raised e2 => e1 = e2
       | _, _ => False
       end)
    (_return_ranks l1 l2 k σ) (_return_ranks l1' l2' k σ').
Proof.
  intros Hπ (Hl1 & Hl2 & Hwf1 & Hwf2) Hl1' Hl2' Hd1 Hd2 Hrows Hk.
  assert (shape0 (arr σ' l1') = shape0 (arr σ l1)) as HN
    by (by rewrite Hd1, shape0_relabel).
  assert (shape0 (arr σ' l2') = shape0 (arr σ l2)) as HN2
    by (by rewrite Hd2, shape0_relabel).
  rewrite !_return_ranks_start by (lia || congruence).
  eapply coupled_bind;
    [apply (coupled_rows l1 l2 (next σ) (arr σ l1) (arr σ l2)
              l1' l2' (next σ') (arr σ' l1') (arr σ' l2') k);
     try done; try lia; try congruence|..].
  - rewrite Hd1. by apply wf_relabel.
  - rewrite Hd2. by apply wf_relabel.
  - rewrite Hd1. simpl. lia.
  - by rewrite Hd2.
  - intros i j Hi Hj. by rewrite Hd1, Hd2, hits_relabel.
  - split; [by apply loop_inv_start|]. split; [by apply loop_inv_start|].
    unfold alloc. simpl. rewrite !fn_lookup_insert. f_equal. f_equal. congruence.
  - by intros [[] σ1] [[] σ1'] ?.
  - by intros e1 e2 ?.
  - by intros a e ?.
  - by intros e b ?.
Qed.

(** The points renamed [10, 11, 12, 13]. *)
Lemma ranks_of_relabelled_witness :
  coupled
    (λ o1 o2,
       match o1, o2 with
       | Returned (lr, σ1), Returned (lr', σ1') => arr σ1 lr = arr σ1' lr'
       | Raised e1, Raised e2 => e1 = e2
       | _, _ => False
       end)
    (_return_ranks 0 1 2
       (heap_of [d4; Ndarray 2 [[0; 1]; [1; 0]; [2; 3]; [3; 2]]]))
    (_return_ranks 0 1 2
       (heap_of [Ndarray 4 [[10; 11; 12; 13]; [11; 10; 12; 13];
                            [12; 13; 10; 11]; [13; 12; 11; 10]];
                 Ndarray 2 [[10; 11]; [11; 10]; [12; 13]; [13; 12]]])).
Proof.
  apply (ranks_of_relabelled (Z.add 10) 0 1
           (heap_of [d4; Ndarray 2 [[0; 1]; [1; 0]; [2; 3]; [3; 2]]]) 0 1).
  - intros x y ?. lia.
  - args_ok_tac.
  - simpl. lia.
  - simpl. lia.
  - done.
  - done.
  - done.
  - simpl. lia.
Defined.
